(** * The agent plan model and the ordering of semantic search results

    A shallow embedding of
    - [src/vs/workbench/contrib/aideAgent/common/aideAgentPlanModel.ts]
      (classes [AideAgentPlanStepModel] and [AideAgentPlanModel]), and
    - the comparator sort of [SideCarClient.getSemanticSearchResult] in
      [extensions/codestory/src/sidecar/client.ts].

    Objects that the TypeScript code shares by reference (the step array of a
    plan, the step objects in it) live in a store and are addressed by
    locations; every method is a computation over that store which either
    returns or throws, and which records the notifications it fires. *)

From stdpp Require Import gmap strings list pretty sorting.
From Stdlib Require Import QArith Lqa.

Local Open Scope string_scope.
Local Open Scope list_scope.
Local Open Scope Z_scope.

(** * The plan model *)

Module Plan.

(** ** Update records *)

(** Modelled from the spec: formatted text.  The declaration of
    [IMarkdownString] ([base/common/htmlContent]) is not among the sources; it
    is an object holding the markdown text and its rendering options. *)
Record IMarkdownString := {
  value : string;
  isTrusted : bool;
  supportThemeIcons : bool;
  supportHtml : bool
}.

(** Modelled from the spec: the update record received from the decoder,
    [{ index: integer, description?: formatted-text, ...other progress fields }].
    The declaration of [IAideAgentPlanStep] ([aideAgentService.ts]) is not
    among the sources; the plan model reads [index] and [description] and
    never inspects the remaining fields. *)
Record IAideAgentPlanStep := {
  index : Z;
  description : option IMarkdownString;
  otherFields : list (string * string)
}.

(** Modelled from the spec: [appendMarkdownString] of [aideAgentModel.ts],
    which is not among the sources.  The new fragment is appended to the
    accumulated description: the texts are concatenated in order and the
    accumulated description keeps its rendering options. *)
Definition appendMarkdownString (md1 md2 : IMarkdownString) : IMarkdownString :=
  {| value := value md1 +:+ value md2;
     isTrusted := isTrusted md1;
     supportThemeIcons := supportThemeIcons md1;
     supportHtml := supportHtml md1 |}.

(** ** The store *)

(** Object references. *)
Definition loc := nat.

(** The fields of an [AideAgentPlanStepModel] object.  [_description] holds
    whatever the creating update carried, so it is absent when that update had
    no description. *)
Record AideAgentPlanStepModel := {
  id : string;
  step_sessionId : string;
  _index : Z;
  _description : option IMarkdownString;
  _parts : list IAideAgentPlanStep;
  _isComplete : bool
}.

(** An [AideAgentPlanModel]: its session and the reference held in the
    private field [_steps], which is assigned once, at construction. *)
Record AideAgentPlanModel := {
  sessionId : string;
  _steps : loc
}.

(** The payload of the plan's change channel. *)
Inductive IAideAgentPlanChangeEvent :=
  | addPlanStep (step : loc).

(** The notification channels (emitters) of the two classes. *)
Inductive Emitter :=
  | StepOnDidChange (s : loc)
  | PlanOnDidDispose (p : AideAgentPlanModel)
  | PlanOnDidChange (p : AideAgentPlanModel).

(** What observers can see, in the order it happens. *)
Inductive Event :=
  | StepDidChange (s : loc)
  | PlanDidChange (p : AideAgentPlanModel) (e : IAideAgentPlanChangeEvent)
  | PlanDidDispose (p : AideAgentPlanModel).

(** The store: the arrays of step references, the step objects, the static
    counter [AideAgentPlanStepModel.nextId], the channels released so far and
    the notifications fired so far (oldest first). *)
Record World := {
  arrays : gmap loc (list loc);
  objects : gmap loc AideAgentPlanStepModel;
  nextId : nat;
  released : list Emitter;
  events : list Event
}.

Definition empty_world : World :=
  {| arrays := ∅; objects := ∅; nextId := 0%nat; released := []; events := [] |}.

(** ** Computations that return or throw *)

Inductive Error :=
  | JsError (message : string)
  | TypeError.

Definition IndexMismatch : Error := JsError "Index mismatch".

Inductive Outcome (A : Type) :=
  | Returned (a : A) (w : World)
  | Thrown (e : Error) (w : World).
Arguments Returned {A} a w.
Arguments Thrown {A} e w.

Definition world_of {A} (o : Outcome A) : World :=
  match o with Returned _ w => w | Thrown _ w => w end.

Definition M (A : Type) : Type := World → Outcome A.

Definition ret {A} (a : A) : M A := fun w => Returned a w.

Definition bind {A B} (k : A → M B) (m : M A) : M B :=
  fun w => match m w with
           | Returned a w' => k a w'
           | Thrown e w' => Thrown e w'
           end.

Definition throw {A} (e : Error) : M A := fun w => Thrown e w.

#[export] Instance M_ret : MRet M := @ret.
#[export] Instance M_bind : MBind M := @bind.

(** Primitive accesses to the store.  Reading through a reference that the
    store does not know cannot happen in a running program; the model raises
    a type error there. *)
Definition read_array (a : loc) : M (list loc) :=
  fun w => match arrays w !! a with
           | Some l => Returned l w
           | None => Thrown TypeError w
           end.

Definition write_array (a : loc) (l : list loc) : M unit :=
  fun w => Returned tt
    {| arrays := <[a := l]> (arrays w); objects := objects w;
       nextId := nextId w; released := released w; events := events w |}.

Definition read_step (s : loc) : M AideAgentPlanStepModel :=
  fun w => match objects w !! s with
           | Some o => Returned o w
           | None => Thrown TypeError w
           end.

Definition write_step (s : loc) (o : AideAgentPlanStepModel) : M unit :=
  fun w => Returned tt
    {| arrays := arrays w; objects := <[s := o]> (objects w);
       nextId := nextId w; released := released w; events := events w |}.

Definition alloc_array (l : list loc) : M loc :=
  fun w => let a := fresh (dom (arrays w)) in
    Returned a
      {| arrays := <[a := l]> (arrays w); objects := objects w;
         nextId := nextId w; released := released w; events := events w |}.

Definition alloc_step (o : AideAgentPlanStepModel) : M loc :=
  fun w => let s := fresh (dom (objects w)) in
    Returned s
      {| arrays := arrays w; objects := <[s := o]> (objects w);
         nextId := nextId w; released := released w; events := events w |}.

(** [AideAgentPlanStepModel.nextId++] *)
Definition post_increment_nextId : M nat :=
  fun w => Returned (nextId w)
    {| arrays := arrays w; objects := objects w;
       nextId := S (nextId w); released := released w; events := events w |}.

(** [emitter.fire(...)]: the notification is delivered synchronously. *)
Definition fire (e : Event) : M unit :=
  fun w => Returned tt
    {| arrays := arrays w; objects := objects w;
       nextId := nextId w; released := released w; events := events w ++ [e] |}.

(** Disposal of a registered emitter. *)
Definition release (c : Emitter) : M unit :=
  fun w => Returned tt
    {| arrays := arrays w; objects := objects w;
       nextId := nextId w; released := released w ++ [c]; events := events w |}.

(** [array.push(x)] *)
Definition push (a : loc) (x : loc) : M unit :=
  l ← read_array a; write_array a (l ++ [x]).

(** [array[i]]: [undefined] (here [None]) outside [0 .. length - 1]. *)
Definition array_get {A} (l : list A) (i : Z) : option A :=
  if bool_decide (0 ≤ i) then l !! Z.to_nat i else None.

(** [array.forEach(f)] *)
Fixpoint forEach {A} (f : A → M unit) (l : list A) : M unit :=
  match l with
  | [] => ret tt
  | x :: l' => (f x;; forEach f l')
  end.

(** ** [AideAgentPlanStepModel] *)

(** The constructor. *)
Definition new_AideAgentPlanStepModel (sessionId : string)
    (initialValue : IAideAgentPlanStep) : M loc :=
  n ← post_increment_nextId;
  alloc_step {| id := "step_" +:+ pretty n;
                step_sessionId := sessionId;
                _index := index initialValue;
                _description := description initialValue;
                _parts := [initialValue];
                _isComplete := false |}.

Definition set_description (d : IMarkdownString) (o : AideAgentPlanStepModel)
    : AideAgentPlanStepModel :=
  {| id := id o; step_sessionId := step_sessionId o; _index := _index o;
     _description := Some d; _parts := _parts o; _isComplete := _isComplete o |}.

Definition push_part (p : IAideAgentPlanStep) (o : AideAgentPlanStepModel)
    : AideAgentPlanStepModel :=
  {| id := id o; step_sessionId := step_sessionId o; _index := _index o;
     _description := _description o; _parts := _parts o ++ [p];
     _isComplete := _isComplete o |}.

(** Modelled from the spec: the call
    [appendMarkdownString(this._description, d)].  The spec does not say what
    appending to an absent description does; the helper has to read the text
    of its first argument, which throws in the language when there is none.
    This case occurs only for a step that was created without a description. *)
Definition call_appendMarkdownString (md1 : option IMarkdownString)
    (md2 : IMarkdownString) : M IMarkdownString :=
  match md1 with
  | Some d1 => ret (appendMarkdownString d1 md2)
  | None => throw TypeError
  end.

(** [updateStep(progress)].  A description is an object, so
    [!progress.description] holds exactly when it is absent. *)
Definition updateStep (this : loc) (progress : IAideAgentPlanStep) : M unit :=
  o ← read_step this;
  if bool_decide (_index o ≠ index progress) then throw IndexMismatch
  else match description progress with
       | None => ret tt
       | Some d =>
           d' ← call_appendMarkdownString (_description o) d;
           write_step this (set_description d' o);;
           o1 ← read_step this;
           write_step this (push_part progress o1);;
           fire (StepDidChange this)
       end.

(** Modelled from the spec: [dispose()] of a step, inherited from
    [Disposable] ([base/common/lifecycle], not among the sources), releases
    what the object registered.  The one thing a step registers with
    [_register] is its change channel [_onDidChange]; the class has no channel
    on which a disposal could be announced, so its disposal releases that
    channel and notifies nobody. *)
Definition step_dispose (this : loc) : M unit :=
  release (StepOnDidChange this).

(** ** [AideAgentPlanModel] *)

(** The constructor: [_steps] starts as a new empty array. *)
Definition new_AideAgentPlanModel (sessionId : string) : M AideAgentPlanModel :=
  a ← alloc_array [];
  ret {| sessionId := sessionId; _steps := a |}.

(** [getSteps()] returns the array held in [_steps] itself. *)
Definition getSteps (this : AideAgentPlanModel) : M loc :=
  ret (_steps this).

(** [updateSteps(progress)].  The instantiation service calls the step
    constructor with the given arguments. *)
Definition updateSteps (this : AideAgentPlanModel) (progress : IAideAgentPlanStep)
    : M unit :=
  l ← read_array (_steps this);
  match array_get l (index progress) with
  | Some s => updateStep s progress
  | None =>
      step ← new_AideAgentPlanStepModel (sessionId this) progress;
      push (_steps this) step;;
      fire (PlanDidChange this (addPlanStep step))
  end.

(** Modelled from the spec: [super.dispose()], the inherited
    [Disposable.dispose], releases the notification channels the plan
    registered. *)
Definition plan_super_dispose (this : AideAgentPlanModel) : M unit :=
  release (PlanOnDidDispose this);;
  release (PlanOnDidChange this).

(** [dispose()] *)
Definition dispose (this : AideAgentPlanModel) : M unit :=
  l ← read_array (_steps this);
  forEach step_dispose l;;
  fire (PlanDidDispose this);;
  plan_super_dispose this.

(** ** Delivering updates and observing the plan *)

(** The decoder delivers the updates with one [updateSteps] call each.  A call
    that throws leaves the store as it was when the error was raised, and the
    next update is delivered to that store. *)
Fixpoint deliver (this : AideAgentPlanModel) (ps : list IAideAgentPlanStep)
    (w : World) : World :=
  match ps with
  | [] => w
  | p :: ps' => deliver this ps' (world_of (updateSteps this p w))
  end.

(** The [_index] fields of the steps that the references in [l] point to. *)
Definition step_indices (w : World) (l : list loc) : option (list Z) :=
  mapM (λ s, _index <$> objects w !! s) l.

(** The indices of an update sequence in the order of their first
    occurrence; [seen] holds the indices met so far. *)
Fixpoint first_observed_from (seen : list Z) (l : list Z) : list Z :=
  match l with
  | [] => []
  | i :: l' =>
      if bool_decide (i ∈ seen) then first_observed_from seen l'
      else i :: first_observed_from (i :: seen) l'
  end.

Definition first_observed (l : list Z) : list Z := first_observed_from [] l.

(** Indices in increasing order starting at 0: the first is 0 and none is
    smaller than the one before it. *)
Fixpoint nondecreasing (prev : Z) (l : list Z) : Prop :=
  match l with
  | [] => True
  | i :: l' => prev ≤ i ∧ nondecreasing i l'
  end.

Definition increasing_from_0 (l : list Z) : Prop :=
  match l with
  | [] => True
  | i :: l' => i = 0 ∧ nondecreasing i l'
  end.

(** The same without gaps: every index repeats the one before it or exceeds
    it by one. *)
Fixpoint contiguous (prev : Z) (l : list Z) : Prop :=
  match l with
  | [] => True
  | i :: l' => (i = prev ∨ i = prev + 1) ∧ contiguous i l'
  end.

Definition contiguous_from_0 (l : list Z) : Prop :=
  match l with
  | [] => True
  | i :: l' => i = 0 ∧ contiguous i l'
  end.

(** No index is skipped: with [n] distinct indices met so far, the next index
    is one of them or is [n] itself. *)
Fixpoint gap_free (n : nat) (l : list Z) : Prop :=
  match l with
  | [] => True
  | i :: l' =>
      0 ≤ i ≤ Z.of_nat n ∧
      gap_free (if bool_decide (i = Z.of_nat n) then S n else n) l'
  end.

(** ** The operations of the component, for reachability *)

Inductive Op :=
  | OpNewPlan (sessionId : string)
  | OpGetSteps (this : AideAgentPlanModel)
  | OpUpdateSteps (this : AideAgentPlanModel) (progress : IAideAgentPlanStep)
  | OpDispose (this : AideAgentPlanModel)
  | OpNewStep (sessionId : string) (initialValue : IAideAgentPlanStep)
  | OpUpdateStep (this : loc) (progress : IAideAgentPlanStep)
  | OpDisposeStep (this : loc).

Definition exec (op : Op) (w : World) : World :=
  match op with
  | OpNewPlan sid => world_of (new_AideAgentPlanModel sid w)
  | OpGetSteps this => world_of (getSteps this w)
  | OpUpdateSteps this p => world_of (updateSteps this p w)
  | OpDispose this => world_of (dispose this w)
  | OpNewStep sid p => world_of (new_AideAgentPlanStepModel sid p w)
  | OpUpdateStep this p => world_of (updateStep this p w)
  | OpDisposeStep this => world_of (step_dispose this w)
  end.

(** The store after a program, given as the list of its calls, has run from
    the empty store. *)
Fixpoint run (ops : list Op) (w : World) : World :=
  match ops with
  | [] => w
  | op :: ops' => run ops' (exec op w)
  end.

(** ** Sample data *)

Definition text (s : string) : IMarkdownString :=
  {| value := s; isTrusted := false; supportThemeIcons := false;
     supportHtml := false |}.

Definition update (i : Z) (s : string) : IAideAgentPlanStep :=
  {| index := i; description := Some (text s); otherFields := [] |}.

Definition bare_update (i : Z) : IAideAgentPlanStep :=
  {| index := i; description := None; otherFields := [] |}.

(** A store holding one new plan for session ["s"], and that plan. *)
Definition sample_plan : AideAgentPlanModel :=
  {| sessionId := "s"; _steps := 0%nat |}.

Definition sample_world : World :=
  world_of (new_AideAgentPlanModel "s" empty_world).

(** A store holding one step, created from the update ["A"] for index 0. *)
Definition sample_step_world : World :=
  world_of (new_AideAgentPlanStepModel "s" (update 0 "A") empty_world).

Definition sample_step : AideAgentPlanStepModel :=
  {| id := "step_0"; step_sessionId := "s"; _index := 0;
     _description := Some (text "A"); _parts := [update 0 "A"];
     _isComplete := false |}.

(** The scenario of three updates for two steps, and an update sequence that
    returns to an earlier index. *)
Definition sample_updates : list IAideAgentPlanStep :=
  [update 0 "Step one"; update 0 " continues"; update 1 "Step two"].

Definition sample_revisiting_updates : list IAideAgentPlanStep :=
  [update 0 "a"; update 1 "b"; update 0 "c"; update 2 "d"].

(** Update sequences that skip indices. *)
Definition sample_gapped_updates : list IAideAgentPlanStep :=
  [update 0 "a"; update 2 "b"; update 2 "c"].

Definition sample_gapped_updates' : list IAideAgentPlanStep :=
  [update 0 "a"; update 3 "b"; update 4 "c"; update 3 "d"].

(** A program that creates a plan, delivers two updates and disposes it. *)
Definition sample_program : list Op :=
  [OpNewPlan "s"; OpUpdateSteps sample_plan (update 0 "A");
   OpUpdateSteps sample_plan (update 0 "B"); OpDispose sample_plan].

(** A program that constructs two steps. *)
Definition sample_two_step_program : list Op :=
  [OpNewStep "s" (update 0 "A"); OpNewStep "t" (update 0 "A")].

(** ** What a delivery reports and accumulates *)

(** The errors thrown by the calls of a delivery, in the order of the calls. *)
Fixpoint deliver_errors (this : AideAgentPlanModel) (ps : list IAideAgentPlanStep)
    (w : World) : list Error :=
  match ps with
  | [] => []
  | p :: ps' =>
      match updateSteps this p w with
      | Returned _ w' => deliver_errors this ps' w'
      | Thrown e w' => e :: deliver_errors this ps' w'
      end
  end.

(** The texts of the descriptions of a list of updates, one after the other. *)
Definition accumulated_text (ps : list IAideAgentPlanStep) : string :=
  foldl (λ acc p, match description p with
                  | Some d => acc +:+ value d
                  | None => acc
                  end) EmptyString ps.

(** The updates of a list that address index [j]. *)
Definition updates_for (j : nat) (ps : list IAideAgentPlanStep)
    : list IAideAgentPlanStep :=
  filter (λ p, index p = Z.of_nat j) ps.

(** A store in which the plan holds two steps, for the indices 0 and 2. *)
Definition sample_gap_world : World :=
  deliver sample_plan [update 0 "a"; update 2 "b"] sample_world.

(** ** The effect of one operation on the step objects *)

(** An operation leaves the step objects alone, or constructs one step, or
    applies one described update to the step it addresses. *)
Inductive objects_step (w w' : World) : Prop :=
  | objects_same :
      objects w' = objects w → nextId w' = nextId w → objects_step w w'
  | objects_new sid p :
      objects w' =
        <[fresh (dom (objects w)) :=
            {| id := "step_" +:+ pretty (nextId w); step_sessionId := sid;
               _index := index p; _description := description p;
               _parts := [p]; _isComplete := false |}]> (objects w) →
      nextId w' = S (nextId w) →
      objects_step w w'
  | objects_updated s o p d0 d :
      objects w !! s = Some o →
      _index o = index p →
      description p = Some d →
      _description o = Some d0 →
      objects w' =
        <[s := push_part p (set_description (appendMarkdownString d0 d) o)]>
          (objects w) →
      nextId w' = nextId w →
      objects_step w w'.

(** The state of a plan during a delivery: the step at position [j] has index
    [j], the fragments [F j] and their accumulated text. *)
Definition accumulated (w : World) (l : list loc)
    (F : nat → list IAideAgentPlanStep) : Prop :=
  ∀ (j : nat) s, l !! j = Some s →
    ∃ o d, objects w !! s = Some o ∧ _index o = Z.of_nat j ∧
      _parts o = F j ∧ _description o = Some d ∧
      value d = accumulated_text (F j).

End Plan.

(** * The ordering of semantic search results *)

Module SideCar.

Local Open Scope Q_scope.

(** A code span of the backend's response.  A score is a JSON number; finite
    numbers are rationals, and the sign of the difference of two of them is
    the sign of their exact difference. *)
Record CodeSpan := {
  file_path : string;
  start_line : Z;
  end_line : Z;
  data : string;
  score : option Q
}.

(** The comparator handed to [sort]. *)
Definition compareFn (a b : CodeSpan) : Q :=
  match score b, score a with
  | Some sb, Some sa => sb - sa
  | Some _, None => 1
  | None, Some _ => -1
  | None, None => 0
  end.

(** [Array.prototype.sort(comparefn)], a builtin of the language: a stable
    sort that puts [x] after [y] when [comparefn(x, y) > 0].  [sort_insert] adds
    an element that stood before all of [l] to the sorted [l]. *)
Fixpoint sort_insert {A} (comparefn : A → A → Q) (x : A) (l : list A) : list A :=
  match l with
  | [] => [x]
  | y :: l' =>
      match comparefn x y ?= 0 with
      | Gt => y :: sort_insert comparefn x l'
      | _ => x :: y :: l'
      end
  end.

Fixpoint sort {A} (comparefn : A → A → Q) (l : list A) : list A :=
  match l with
  | [] => []
  | x :: l' => sort_insert comparefn x (sort comparefn l')
  end.

Inductive CodeSymbolKind :=
  | CodeSymbolKind_null.

Record CodeSnippet := {
  languageId : string;
  code : string
}.

Record CodeSymbolInformation := {
  symbolName : string;
  symbolKind : CodeSymbolKind;
  symbolStartLine : Z;
  symbolEndLine : Z;
  codeSnippet : CodeSnippet;
  extraSymbolHint : option string;
  dependencies : list string;
  fsFilePath : string;
  originalFilePath : string;
  workingDirectory : string;
  displayName : string;
  originalName : string;
  originalSymbolName : string;
  globalScope : string
}.

Record CodeSymbolInformationEmbeddings := {
  codeSymbolInformation : CodeSymbolInformation;
  codeSymbolEmbedding : list Q;
  fileHash : string
}.

Section getSemanticSearchResult.

(** [path.join] of the runtime, and [reporef.getPath()]. *)
Variable path_join : string → string → string.
Variable repoPath : string.

(** The callback of [map]. *)
Definition toEmbeddings (codeSpan : CodeSpan) : CodeSymbolInformationEmbeddings :=
  let filePath := path_join repoPath (file_path codeSpan) in
  {| codeSymbolInformation :=
       {| symbolName := EmptyString;
          symbolKind := CodeSymbolKind_null;
          symbolStartLine := start_line codeSpan;
          symbolEndLine := end_line codeSpan;
          codeSnippet := {| languageId := "typescript"; code := data codeSpan |};
          extraSymbolHint := None;
          dependencies := [];
          fsFilePath := filePath;
          originalFilePath := filePath;
          workingDirectory := repoPath;
          displayName := EmptyString;
          originalName := EmptyString;
          originalSymbolName := EmptyString;
          globalScope := "global" |};
     codeSymbolEmbedding := [];
     fileHash := EmptyString |}.

(** [getSemanticSearchResult], from the [code_spans] of the parsed response
    on. *)
Definition getSemanticSearchResult (code_spans : list CodeSpan)
    : list CodeSymbolInformationEmbeddings :=
  let sortedCodeSymbols := sort compareFn code_spans in
  map toEmbeddings sortedCodeSymbols.

End getSemanticSearchResult.

(** [a] may stand before [b] in the result: both have a score and [a]'s is
    not the smaller one, or [b] has none. *)
Definition may_precede (a b : CodeSpan) : Prop :=
  match score a, score b with
  | Some sa, Some sb => sb <= sa
  | _, None => True
  | None, Some _ => False
  end.

(** [a] and [b] compare equal. *)
Definition same_rank (a b : CodeSpan) : bool :=
  Qeq_bool (compareFn a b) 0.

Definition span (name : string) (s : option Q) : CodeSpan :=
  {| file_path := name; start_line := 1; end_line := 2; data := EmptyString; score := s |}.

End SideCar.

(** * The sidecar client: repository references and the health check *)

Module Client.

(** ** [RepoRef] *)

Inductive RepoRefBackend :=
  | local
  | github.

(** The string value of a member of the enum. *)
Definition backend_value (b : RepoRefBackend) : string :=
  match b with
  | local => "local"
  | github => "github"
  end.

Record RepoRef := {
  _path : string;
  _backend : RepoRefBackend
}.

Definition getRepresentation (this : RepoRef) : string :=
  backend_value (_backend this) +:+ "/" +:+ _path this.

Definition getPath (this : RepoRef) : string := _path this.

(** ** Values of the language *)

(** What [response.json()] gives. *)
#[local] Unset Elimination Schemes.
Inductive Json :=
  | JNull
  | JBool (b : bool)
  | JNumber (q : Q)
  | JString (s : string)
  | JArray (items : list Json)
  | JObject (fields : list (string * Json)).
#[local] Set Elimination Schemes.

Inductive Exn :=
  | NetworkError (message : string)
  | JsTypeError
  | BodyError.

(** The value of the property [k] of a parsed object; of two fields with one
    name the later one counts. *)
Definition own_property (k : string) (fields : list (string * Json)) : option Json :=
  snd <$> List.find (λ kv, String.eqb (fst kv) k) (reverse fields).

(** [v.k], for a name [k] that no prototype defines (as [repo_map] and
    [status]): [undefined], here [None], unless [v] is an object with that
    field; reading a property of [null] throws. *)
Definition get_property (v : Json) (k : string) : Exn + option Json :=
  match v with
  | JNull => inl JsTypeError
  | JObject fields => inr (own_property k fields)
  | _ => inr None
  end.

(** [k in v], for a name [k] that is neither an index nor defined by a
    prototype (a repository representation holds a slash): it throws unless
    [v] is an object or an array. *)
Definition js_in (k : string) (v : option Json) : Exn + bool :=
  match v with
  | Some (JObject fields) => inr (bool_decide (k ∈ fields.*1))
  | Some (JArray _) => inr false
  | _ => inl JsTypeError
  end.

(** [v === s] for a string [s]. *)
Definition strict_eq_string (v : option Json) (s : string) : bool :=
  match v with
  | Some (JString s') => String.eqb s' s
  | _ => false
  end.

(** ** URLs and the network *)

(** A [URL] object, by what the code did to it: the text it was constructed
    from, the path assigned to [pathname], and the parameters set through
    [searchParams], in the order of the calls. *)
Record URL := {
  source : string;
  pathname : option string;
  searchParams : list (string * string)
}.

Definition set_pathname (p : string) (u : URL) : URL :=
  {| source := source u; pathname := Some p; searchParams := searchParams u |}.

Definition searchParams_set (k v : string) (u : URL) : URL :=
  {| source := source u; pathname := pathname u;
     searchParams := searchParams u ++ [(k, v)] |}.

Record Response := {
  status : Z;
  body : option Json
}.

(** What the client does that can be seen from outside. *)
Inductive Action :=
  | Fetched (u : URL)
  | Slept (milliseconds : Z).

(** The number of requests made so far and the actions so far, oldest
    first. *)
Record Net := {
  requests : nat;
  trace : list Action
}.

Inductive Result (A : Type) :=
  | Done (a : A) (n : Net)
  | Failed (e : Exn) (n : Net)
  | OutOfFuel.
Arguments Done {A} a n.
Arguments Failed {A} e n.
Arguments OutOfFuel {A}.

Definition C (A : Type) : Type := Net → Result A.

Definition C_ret {A} (a : A) : C A := fun n => Done a n.

Definition C_bind {A B} (k : A → C B) (m : C A) : C B :=
  fun n => match m n with
           | Done a n' => k a n'
           | Failed e n' => Failed e n'
           | OutOfFuel => OutOfFuel
           end.

#[export] Instance C_mret : MRet C := @C_ret.
#[export] Instance C_mbind : MBind C := @C_bind.

Definition C_throw {A} (e : Exn) : C A := fun n => Failed e n.

(** [try { m } catch (e) { h e }] *)
Definition try_catch {A} (m : C A) (h : Exn → C A) : C A :=
  fun n => match m n with
           | Failed e n' => h e n'
           | r => r
           end.

(** A value or an exception, as a computation. *)
Definition lift {A} (r : Exn + A) : C A :=
  match r with
  | inl e => C_throw e
  | inr a => C_ret a
  end.

(** [sleep(ms)] *)
Definition sleep (ms : Z) : C unit :=
  fun n => Done tt {| requests := requests n; trace := trace n ++ [Slept ms] |}.

(** [response.json()]: rejects when the body is not a JSON text. *)
Definition json (r : Response) : C Json :=
  match body r with
  | Some j => C_ret j
  | None => C_throw BodyError
  end.

Record SideCarClient := {
  _url : string
}.

Definition totalAttempts : Z := 10.

Section network.

(** The environment: which texts [new URL] accepts, and how the request
    number [k] (counting from 0) is answered: rejected, or a response. *)
Variable url_valid : string → bool.
Variable respond : nat → URL → Exn + Response.

(** [new URL(text)] *)
Definition new_URL (text : string) : C URL :=
  if url_valid text
  then C_ret {| source := text; pathname := None; searchParams := [] |}
  else C_throw JsTypeError.

(** [fetch(url)] *)
Definition fetch (u : URL) : C Response :=
  fun n =>
    let n' := {| requests := S (requests n); trace := trace n ++ [Fetched u] |} in
    match respond (requests n) u with
    | inl e => Failed e n'
    | inr r => Done r n'
    end.

(** [getRepoListUrl()] *)
Definition getRepoListUrl (this : SideCarClient) : C URL :=
  baseUrl ← new_URL (_url this);
  mret (set_pathname "/api/repo/repo_list" baseUrl).

(** The loop of [waitForGreenHC]; [fuel] bounds the number of rounds. *)
Fixpoint waitForGreenHC_loop (fuel : nat) (baseUrl : URL) (attempts : Z) : C bool :=
  match fuel with
  | O => fun _ => OutOfFuel
  | S fuel' =>
      try_catch
        (response ← fetch baseUrl;
         mret (bool_decide (status response = 200)))
        (λ e,
           sleep (1000 * (attempts + 1));;
           if bool_decide (attempts + 1 < totalAttempts)
           then waitForGreenHC_loop fuel' baseUrl (attempts + 1)
           else C_throw e)
  end.

(** [waitForGreenHC()] *)
Definition waitForGreenHC (fuel : nat) (this : SideCarClient) : C bool :=
  baseUrl ← new_URL (_url this);
  waitForGreenHC_loop fuel (set_pathname "/api/health" baseUrl) 0.

(** [indexRepositoryIfNotInvoked(repoRef)] *)
Definition indexRepositoryIfNotInvoked (fuel : nat) (this : SideCarClient)
    (repoRef : RepoRef) : C bool :=
  waitForGreenHC fuel this;;
  repoListUrl ← getRepoListUrl this;
  response ← fetch repoListUrl;
  repoList ← json response;
  repo_map ← lift (get_property repoList "repo_map");
  listed ← lift (js_in (getRepresentation repoRef) repo_map);
  if negb listed then
    baseUrl ← new_URL (_url this);
    response ← fetch (searchParams_set "repo" (getRepresentation repoRef)
                        (set_pathname "/api/repo/sync" baseUrl));
    responseJson ← json response;
    status ← lift (get_property responseJson "status");
    mret (strict_eq_string status "ok")
  else mret true.

End network.

(** The requests and pauses of [k] failed rounds of the health check, the
    first of which is round number [i]. *)
Fixpoint failed_rounds (u : URL) (i : Z) (k : nat) : list Action :=
  match k with
  | O => []
  | S k' => Fetched u :: Slept (1000 * (i + 1)) :: failed_rounds u (i + 1) k'
  end.

(** The URL objects the client builds. *)
Definition health_url (this : SideCarClient) : URL :=
  {| source := _url this; pathname := Some "/api/health"; searchParams := [] |}.

Definition repo_list_url (this : SideCarClient) : URL :=
  {| source := _url this; pathname := Some "/api/repo/repo_list";
     searchParams := [] |}.

Definition sync_url (this : SideCarClient) (repoRef : RepoRef) : URL :=
  {| source := _url this; pathname := Some "/api/repo/sync";
     searchParams := [("repo", getRepresentation repoRef)] |}.

(** ** Sample data *)

Definition sample_client : SideCarClient := {| _url := "http://127.0.0.1:42424" |}.

Definition sample_repo : RepoRef := {| _path := "/home/me/project"; _backend := local |}.

Definition no_requests : Net := {| requests := 0; trace := [] |}.

Definition ok_response (j : Json) : Exn + Response :=
  inr {| status := 200; body := Some j |}.

(** A server that is down. *)
Definition sample_down : nat → URL → Exn + Response :=
  λ _ _, inl (NetworkError "connection refused").

(** A server that answers the third request, with status 503, and lists the
    sample repository. *)
Definition sample_listed : nat → URL → Exn + Response :=
  λ k _,
    if bool_decide (k < 2)%nat then inl (NetworkError "connection refused")
    else if bool_decide (k = 2%nat)
         then inr {| status := 503; body := None |}
         else ok_response
                (JObject [("repo_map",
                           JObject [("local//home/me/project", JObject [])])]).

(** A server that lists no repository and accepts the request to index. *)
Definition sample_unlisted : nat → URL → Exn + Response :=
  λ k _,
    if bool_decide (k = 0%nat) then ok_response JNull
    else if bool_decide (k = 1%nat)
         then ok_response (JObject [("repo_map", JObject [])])
         else ok_response (JObject [("status", JString "ok")]).

End Client.

(** * Properties of the plan model *)

Module PlanFacts.
Import Plan.

(** ** What each method does to the store *)

(** Exposes the sequencing of a computation. *)
Ltac unfold_M := unfold mbind, M_bind, bind, read_array, read_step.

(** The set of indices met so far, at the start of a delivery. *)
Ltac nothing_seen := intros z; rewrite elem_of_nil; lia.

Lemma updateStep_unfold this progress w :
  updateStep this progress w =
  match objects w !! this with
  | None => Thrown TypeError w
  | Some o =>
      if bool_decide (_index o ≠ index progress) then Thrown IndexMismatch w
      else match description progress with
           | None => Returned tt w
           | Some d =>
               match _description o with
               | None => Thrown TypeError w
               | Some d0 =>
                   Returned tt
                     {| arrays := arrays w;
                        objects :=
                          <[this := push_part progress
                                      (set_description (appendMarkdownString d0 d) o)]>
                            (objects w);
                        nextId := nextId w;
                        released := released w;
                        events := events w ++ [StepDidChange this] |}
               end
           end
  end.
Proof.
  unfold updateStep. unfold_M.
  destruct (objects w !! this) as [o|] eqn:Ho; [|done].
  case_bool_decide; [done|].
  destruct (description progress) as [d|]; [|done].
  destruct (_description o) as [d0|]; simpl; [|done].
  rewrite lookup_insert_eq. unfold write_step, fire. simpl.
  by rewrite insert_insert_eq.
Qed.

Lemma new_step_unfold sid p w :
  new_AideAgentPlanStepModel sid p w =
  Returned (fresh (dom (objects w)))
    {| arrays := arrays w;
       objects :=
         <[fresh (dom (objects w)) :=
             {| id := "step_" +:+ pretty (nextId w); step_sessionId := sid;
                _index := index p; _description := description p;
                _parts := [p]; _isComplete := false |}]> (objects w);
       nextId := S (nextId w);
       released := released w;
       events := events w |}.
Proof. done. Qed.

Lemma fresh_step_unused (w : World) : objects w !! fresh (dom (objects w)) = None.
Proof. apply not_elem_of_dom, is_fresh. Qed.

Lemma updateSteps_unfold this p w l :
  arrays w !! _steps this = Some l →
  updateSteps this p w =
  match array_get l (index p) with
  | Some s => updateStep s p w
  | None =>
      let s : loc := fresh (dom (objects w)) in
      Returned tt
        {| arrays := <[_steps this := l ++ [s]]> (arrays w);
           objects :=
             <[s := {| id := "step_" +:+ pretty (nextId w);
                       step_sessionId := sessionId this;
                       _index := index p; _description := description p;
                       _parts := [p]; _isComplete := false |}]> (objects w);
           nextId := S (nextId w);
           released := released w;
           events := events w ++ [PlanDidChange this (addPlanStep s)] |}
  end.
Proof.
  intros Hl. unfold updateSteps. unfold_M. rewrite Hl.
  destruct (array_get l (index p)) as [s|]; [done|].
  rewrite new_step_unfold. unfold push. unfold_M. simpl.
  by rewrite Hl.
Qed.

Lemma forEach_step_dispose l w :
  forEach step_dispose l w =
  Returned tt
    {| arrays := arrays w; objects := objects w; nextId := nextId w;
       released := released w ++ (StepOnDidChange <$> l);
       events := events w |}.
Proof.
  revert w. induction l as [|s l IH]; intros w.
  - destruct w; unfold forEach, ret; simpl. by rewrite !app_nil_r.
  - simpl. unfold mbind, M_bind, bind, step_dispose at 1, release. simpl.
    rewrite IH. simpl. by rewrite <- !app_assoc.
Qed.

Lemma dispose_unfold this w l :
  arrays w !! _steps this = Some l →
  dispose this w =
  Returned tt
    {| arrays := arrays w; objects := objects w; nextId := nextId w;
       released := released w ++ (StepOnDidChange <$> l)
                     ++ [PlanOnDidDispose this; PlanOnDidChange this];
       events := events w ++ [PlanDidDispose this] |}.
Proof.
  intros Hl. unfold dispose. unfold_M. rewrite Hl.
  rewrite forEach_step_dispose. simpl.
  unfold plan_super_dispose, release. unfold_M. simpl.
  by rewrite <- !app_assoc.
Qed.

(** ** What [updateStep] leaves alone *)

Lemma updateStep_arrays this progress w :
  arrays (world_of (updateStep this progress w)) = arrays w.
Proof. rewrite updateStep_unfold. repeat (case_match; simpl; try done). Qed.

Lemma updateStep_index this progress w s :
  _index <$> objects (world_of (updateStep this progress w)) !! s
  = _index <$> objects w !! s.
Proof.
  rewrite updateStep_unfold.
  destruct (objects w !! this) as [o|] eqn:Ho; [|done].
  repeat (case_match; simpl; try done).
  destruct (decide (this = s)) as [->|Hne].
  - by rewrite lookup_insert_eq, Ho.
  - by rewrite lookup_insert_ne.
Qed.

Lemma updateStep_step_indices this progress w l :
  step_indices (world_of (updateStep this progress w)) l = step_indices w l.
Proof. apply mapM_ext. intros s. apply updateStep_index. Qed.

Lemma updateStep_isComplete this progress w :
  map_Forall (λ _ o, _isComplete o = false) (objects w) →
  map_Forall (λ _ o, _isComplete o = false)
    (objects (world_of (updateStep this progress w))).
Proof.
  intros Hw. rewrite updateStep_unfold.
  destruct (objects w !! this) as [o|] eqn:Ho; [|done].
  repeat (case_match; simpl; try done).
  apply map_Forall_insert_2; [|done]. simpl. by apply (Hw this).
Qed.

(** ** Steps *)

(** C3: [updateStep] with an update whose index differs from the step's own
    index throws the index-mismatch error, and the store at the throw is the
    store before the call: the step's description, fragments and completion
    flag are as they were and nothing was notified. *)
Theorem updateStep_index_mismatch this o progress w :
  objects w !! this = Some o →
  _index o ≠ index progress →
  updateStep this progress w = Thrown IndexMismatch w ∧
  objects (world_of (updateStep this progress w)) !! this = Some o ∧
  events (world_of (updateStep this progress w)) = events w.
Proof.
  intros Ho Hne. rewrite updateStep_unfold, Ho.
  rewrite bool_decide_eq_true_2 by done. done.
Qed.

Lemma updateStep_index_mismatch_witness :
  updateStep 0%nat (update 1 "B") sample_step_world
  = Thrown IndexMismatch sample_step_world.
Proof.
  refine (proj1 (updateStep_index_mismatch 0%nat sample_step (update 1 "B")
                   sample_step_world _ _)).
  - vm_compute. reflexivity.
  - simpl. lia.
Defined.

(** C2: a step created from an update with description [A] and then updated,
    through [updateStep], with an update of the same index and description
    [B] has the text of [A] followed by the text of [B] as its description and
    two fragments, the second of which is the second update itself. *)
Theorem create_then_update_concatenates sid p1 p2 A B w :
  description p1 = Some A →
  description p2 = Some B →
  value A ≠ EmptyString →
  value B ≠ EmptyString →
  index p2 = index p1 →
  ∃ this w1 w2 o,
    new_AideAgentPlanStepModel sid p1 w = Returned this w1 ∧
    updateStep this p2 w1 = Returned tt w2 ∧
    objects w2 !! this = Some o ∧
    value <$> _description o = Some (value A +:+ value B) ∧
    _parts o = [p1; p2] ∧
    length (_parts o) = 2%nat.
Proof.
  intros HA HB _ _ Hidx. rewrite new_step_unfold.
  eexists _, _, _, _. split; [reflexivity|].
  rewrite updateStep_unfold. simpl. rewrite lookup_insert_eq. simpl.
  rewrite bool_decide_eq_false_2 by (intros H; apply H; done).
  rewrite HB, HA. split; [reflexivity|]. simpl.
  rewrite lookup_insert_eq. done.
Qed.

Lemma create_then_update_concatenates_witness :
  ∃ this w1 w2 o,
    new_AideAgentPlanStepModel "s" (update 0 "A") empty_world = Returned this w1 ∧
    updateStep this (update 0 "B") w1 = Returned tt w2 ∧
    objects w2 !! this = Some o ∧
    value <$> _description o = Some "AB" ∧
    _parts o = [update 0 "A"; update 0 "B"] ∧
    length (_parts o) = 2%nat.
Proof.
  refine (create_then_update_concatenates "s" (update 0 "A") (update 0 "B")
            (text "A") (text "B") empty_world _ _ _ _ _).
  - reflexivity.
  - reflexivity.
  - simpl. discriminate.
  - simpl. discriminate.
  - reflexivity.
Defined.

Lemma append_empty_r (s : string) : s +:+ EmptyString = s.
Proof.
  induction s as [|c s IH]; [done|].
  change (String c (s +:+ EmptyString) = String c s). by rewrite IH.
Qed.

(** C6, as stated, fails: an update whose description is present but has an
    empty text is applied like any other.  Here the step created from
    ["A"] receives the empty text; it then has two fragments and a change
    notification was fired. *)
Lemma empty_description_is_applied :
  ¬ (∀ this o progress w,
       objects w !! this = Some o →
       index progress = _index o →
       description progress = None ∨ value <$> description progress = Some EmptyString →
       ∃ o', objects (world_of (updateStep this progress w)) !! this = Some o' ∧
             _description o' = _description o ∧
             length (_parts o') = length (_parts o) ∧
             _isComplete o' = _isComplete o ∧
             events (world_of (updateStep this progress w)) = events w).
Proof.
  intros H.
  destruct (H 0%nat sample_step (update 0 EmptyString)
              sample_step_world)
    as (o' & Ho' & _ & Hlen & _ & Hev).
  - vm_compute. reflexivity.
  - reflexivity.
  - right. reflexivity.
  - vm_compute in Hev. discriminate Hev.
Qed.

(** C6, amended: an update with the step's own index and no description is a
    no-op: [updateStep] returns and the store, with the step's description,
    fragments and completion flag and with the notifications fired so far, is
    the one before the call.  On a step that has a description, an update
    whose description is present is applied even when its text is empty: its
    text is put behind the accumulated text, which therefore stays the same
    when it is empty, the update becomes one more fragment and one change
    notification is fired. *)
Theorem updateStep_without_description this o progress w :
  objects w !! this = Some o →
  index progress = _index o →
  (description progress = None → updateStep this progress w = Returned tt w) ∧
  (∀ d d0, description progress = Some d → _description o = Some d0 →
     ∃ w' o', updateStep this progress w = Returned tt w' ∧
       objects w' !! this = Some o' ∧
       value <$> _description o' = Some (value d0 +:+ value d) ∧
       (value d = EmptyString → value <$> _description o' = Some (value d0)) ∧
       _parts o' = _parts o ++ [progress] ∧
       _isComplete o' = _isComplete o ∧
       events w' = events w ++ [StepDidChange this]).
Proof.
  intros Ho Hidx. split.
  - intros Hd. rewrite updateStep_unfold, Ho, Hd.
    by rewrite bool_decide_eq_false_2 by (intros H; apply H; done).
  - intros d d0 Hd Hd0. rewrite updateStep_unfold, Ho, Hd, Hd0.
    rewrite bool_decide_eq_false_2 by (intros H; apply H; done).
    eexists _, _. split; [reflexivity|]. simpl. rewrite lookup_insert_eq.
    split; [reflexivity|]. simpl. split; [done|]. split; [|done].
    intros Hempty. by rewrite Hempty, append_empty_r.
Qed.

Lemma updateStep_without_description_witness :
  updateStep 0%nat (bare_update 0) sample_step_world
  = Returned tt sample_step_world ∧
  ∃ w' o', updateStep 0%nat (update 0 EmptyString) sample_step_world
           = Returned tt w' ∧
    objects w' !! 0%nat = Some o' ∧
    value <$> _description o' = Some "A" ∧
    (EmptyString = EmptyString → value <$> _description o' = Some "A") ∧
    _parts o' = [update 0 "A"; update 0 EmptyString] ∧
    _isComplete o' = false ∧
    events w' = [StepDidChange 0%nat].
Proof.
  split.
  - refine (proj1 (updateStep_without_description 0%nat sample_step
                     (bare_update 0) sample_step_world _ _) _).
    + vm_compute. reflexivity.
    + reflexivity.
    + reflexivity.
  - refine (proj2 (updateStep_without_description 0%nat sample_step
                     (update 0 EmptyString) sample_step_world _ _)
              (text EmptyString) (text "A") _ _).
    + vm_compute. reflexivity.
    + reflexivity.
    + reflexivity.
    + reflexivity.
Defined.

(** ** Plans *)

(** C10: when the slot at the update's index is empty, [updateSteps] creates
    a step, appends it to the plan's array and fires the ['addPlanStep']
    notification, whatever the update's description is (present, empty or
    absent).  The new step has the update as its only fragment and the
    update's description as its description. *)
Theorem updateSteps_creates_step this progress w l :
  arrays w !! _steps this = Some l →
  array_get l (index progress) = None →
  ∃ step w' o,
    updateSteps this progress w = Returned tt w' ∧
    objects w !! step = None ∧
    arrays w' !! _steps this = Some (l ++ [step]) ∧
    objects w' !! step = Some o ∧
    _index o = index progress ∧
    _description o = description progress ∧
    _parts o = [progress] ∧
    length (_parts o) = 1%nat ∧
    _isComplete o = false ∧
    events w' = events w ++ [PlanDidChange this (addPlanStep step)].
Proof.
  intros Hl Hget. rewrite (updateSteps_unfold _ _ _ _ Hl), Hget.
  eexists _, _, _. split; [reflexivity|]. simpl.
  rewrite !lookup_insert_eq.
  split; [apply fresh_step_unused|]. done.
Qed.

Lemma updateSteps_creates_step_witness :
  ∃ step w' o,
    updateSteps sample_plan (bare_update 0) sample_world = Returned tt w' ∧
    objects sample_world !! step = None ∧
    arrays w' !! _steps sample_plan = Some ([] ++ [step]) ∧
    objects w' !! step = Some o ∧
    _index o = 0 ∧
    _description o = None ∧
    _parts o = [bare_update 0] ∧
    length (_parts o) = 1%nat ∧
    _isComplete o = false ∧
    events w' = events sample_world ++ [PlanDidChange sample_plan (addPlanStep step)].
Proof.
  refine (updateSteps_creates_step sample_plan (bare_update 0) sample_world [] _ _).
  - vm_compute. reflexivity.
  - reflexivity.
Defined.







(** ** The order of first observation *)

Lemma elem_of_first_observed_from seen l x :
  x ∈ first_observed_from seen l ↔ x ∈ l ∧ x ∉ seen.
Proof.
  revert seen. induction l as [|i l IH]; intros seen; simpl.
  - rewrite !elem_of_nil. tauto.
  - case_bool_decide as Hi.
    + rewrite IH, elem_of_cons. split; [tauto|].
      intros [[->|Hx] Hs]; [contradiction|done].
    + rewrite !elem_of_cons, IH, elem_of_cons.
      destruct (decide (x = i)) as [->|Hne]; [tauto|]. tauto.
Qed.

Lemma NoDup_first_observed_from seen l : NoDup (first_observed_from seen l).
Proof.
  revert seen. induction l as [|i l IH]; intros seen; simpl.
  - constructor.
  - case_bool_decide; [done|]. constructor; [|done].
    rewrite elem_of_first_observed_from, elem_of_cons. tauto.
Qed.

Lemma length_first_observed l :
  length (first_observed l) = length (remove_dups l).
Proof.
  apply Permutation_length, NoDup_Permutation.
  - apply NoDup_first_observed_from.
  - apply NoDup_remove_dups.
  - intros x. unfold first_observed.
    rewrite elem_of_first_observed_from, elem_of_remove_dups.
    split; [by intros [? _]|]. intros ?. split; [done|]. by intros ?%elem_of_nil.
Qed.

Lemma contiguous_gap_free n l :
  contiguous (Z.of_nat n) l → gap_free (S n) l.
Proof.
  revert n. induction l as [|i l IH]; intros n; simpl; [done|].
  intros [Hi Hl]. split; [lia|].
  case_bool_decide as Hn.
  - apply IH. by replace (Z.of_nat (S n)) with i.
  - apply IH. by replace (Z.of_nat n) with i by lia.
Qed.

Lemma contiguous_from_0_gap_free l : contiguous_from_0 l → gap_free 0 l.
Proof.
  destruct l as [|i l]; simpl; [done|]. intros [-> Hl]. split; [lia|].
  rewrite bool_decide_eq_true_2 by done. by apply (contiguous_gap_free 0).
Qed.

(** ** Delivering a sequence of updates *)

Lemma step_indices_length w l k : step_indices w l = Some k → length l = length k.
Proof. intros H%mapM_Some_1. by eapply Forall2_length. Qed.

Lemma array_get_ge {A} (l : list A) (i : Z) :
  Z.of_nat (length l) ≤ i → array_get l i = None.
Proof.
  intros Hi. unfold array_get. case_bool_decide; [|done].
  apply lookup_ge_None_2. lia.
Qed.

Lemma array_get_lt {A} (l : list A) (i : Z) :
  0 ≤ i < Z.of_nat (length l) → is_Some (array_get l i).
Proof.
  intros Hi. unfold array_get. rewrite bool_decide_eq_true_2 by lia.
  apply lookup_lt_is_Some_2. lia.
Qed.

(** The store after a call that found the slot empty. *)
Lemma updateSteps_push_indices this p w l k :
  arrays w !! _steps this = Some l →
  array_get l (index p) = None →
  step_indices w l = Some k →
  let w' := world_of (updateSteps this p w) in
  ∃ s, arrays w' !! _steps this = Some (l ++ [s]) ∧
       step_indices w' (l ++ [s]) = Some (k ++ [index p]).
Proof.
  intros Hl Hget Hk. rewrite (updateSteps_unfold _ _ _ _ Hl), Hget. simpl.
  eexists. rewrite lookup_insert_eq. split; [done|].
  apply mapM_Some_2, Forall2_app.
  - apply mapM_Some_1 in Hk. eapply Forall2_impl; [exact Hk|].
    intros s i Hs. simpl in *. rewrite lookup_insert_ne; [done|].
    intros <-. by rewrite fresh_step_unused in Hs.
  - constructor; [|constructor]. simpl. by rewrite lookup_insert_eq.
Qed.

(** The store after a call that found the slot taken. *)
Lemma updateSteps_delegate_indices this p w l s :
  arrays w !! _steps this = Some l →
  array_get l (index p) = Some s →
  let w' := world_of (updateSteps this p w) in
  arrays w' !! _steps this = Some l ∧
  step_indices w' l = step_indices w l.
Proof.
  intros Hl Hget. rewrite (updateSteps_unfold _ _ _ _ Hl), Hget. simpl.
  by rewrite updateStep_arrays, updateStep_step_indices.
Qed.

Lemma deliver_gap_free this ps w l n seen :
  arrays w !! _steps this = Some l →
  step_indices w l = Some (Z.of_nat <$> seq 0 n) →
  (∀ z, z ∈ seen ↔ 0 ≤ z < Z.of_nat n) →
  gap_free n (index <$> ps) →
  ∃ l', arrays (deliver this ps w) !! _steps this = Some l' ∧
        step_indices (deliver this ps w) l'
        = Some ((Z.of_nat <$> seq 0 n) ++ first_observed_from seen (index <$> ps)).
Proof.
  revert w l n seen. induction ps as [|p ps IH]; intros w l n seen Hl Hk Hseen Hgap.
  - exists l. simpl. by rewrite app_nil_r.
  - simpl in Hgap. destruct Hgap as [Hi Hgap]. simpl.
    assert (length l = n) as Hlen.
    { apply step_indices_length in Hk. by rewrite length_fmap, length_seq in Hk. }
    destruct (decide (index p ∈ seen)) as [Hin|Hin].
    + (* an index met before: its slot is taken *)
      rewrite (bool_decide_eq_true_2 _ Hin). apply Hseen in Hin.
      rewrite bool_decide_eq_false_2 in Hgap by lia.
      destruct (array_get_lt l (index p)) as [s Hs]; [lia|].
      destruct (updateSteps_delegate_indices this p w l s Hl Hs) as [Hl' Hk'].
      apply (IH (world_of (updateSteps this p w)) l n seen);
        [done|by rewrite Hk'|done|done].
    + (* the next index: its slot is empty *)
      rewrite (bool_decide_eq_false_2 _ Hin).
      assert (index p = Z.of_nat n) as Hn.
      { destruct (decide (index p = Z.of_nat n)); [done|].
        exfalso. apply Hin, Hseen. lia. }
      rewrite bool_decide_eq_true_2 in Hgap by done.
      assert (array_get l (index p) = None) as Hget by (apply array_get_ge; lia).
      destruct (updateSteps_push_indices this p w l _ Hl Hget Hk) as (s & Hl' & Hk').
      destruct (IH (world_of (updateSteps this p w)) (l ++ [s]) (S n)
                  (index p :: seen)) as (l' & Hl'' & Hk'');
        [done| |  |done|].
      * rewrite Hk', Hn, seq_S, fmap_app. done.
      * intros z. rewrite elem_of_cons, Hseen. lia.
      * exists l'. split; [done|]. rewrite Hk'', seq_S, fmap_app, <- app_assoc.
        simpl. by rewrite Hn.
Qed.

Lemma updateSteps_appends this p w l :
  arrays w !! _steps this = Some l →
  ∃ l1, arrays (world_of (updateSteps this p w)) !! _steps this = Some (l ++ l1).
Proof.
  intros Hl. rewrite (updateSteps_unfold _ _ _ _ Hl).
  destruct (array_get l (index p)) as [s|].
  - exists []. by rewrite updateStep_arrays, app_nil_r.
  - eexists [_]. simpl. by rewrite lookup_insert_eq.
Qed.

Lemma deliver_appends this ps w l :
  arrays w !! _steps this = Some l →
  ∃ l', arrays (deliver this ps w) !! _steps this = Some (l ++ l').
Proof.
  revert w l. induction ps as [|p ps IH]; intros w l Hl; simpl.
  - exists []. by rewrite app_nil_r.
  - destruct (updateSteps_appends this p w l Hl) as [l1 Hl1].
    destruct (IH _ _ Hl1) as [l' Hl']. exists (l1 ++ l').
    by rewrite app_assoc.
Qed.

(** When no index repeats, every update finds its slot empty, gaps or not. *)
Lemma deliver_strictly_increasing this ps w l :
  arrays w !! _steps this = Some l →
  nondecreasing (Z.of_nat (length l)) (index <$> ps) →
  StronglySorted Z.lt (index <$> ps) →
  ∃ l', arrays (deliver this ps w) !! _steps this = Some l' ∧
        length l' = (length l + length ps)%nat.
Proof.
  revert w l. induction ps as [|p ps IH]; intros w l Hl Hge Hlt; simpl.
  - exists l. split; [done|]. lia.
  - simpl in Hge. destruct Hge as [Hp Hge].
    apply StronglySorted_inv in Hlt as [Hlt Hall].
    assert (∃ s, arrays (world_of (updateSteps this p w)) !! _steps this
                 = Some (l ++ [s])) as [s Hl'].
    { rewrite (updateSteps_unfold _ _ _ _ Hl), array_get_ge by done.
      eexists. simpl. by rewrite lookup_insert_eq. }
    destruct (IH (world_of (updateSteps this p w)) (l ++ [s])) as (l' & Hl'' & Hlen);
      [done| |done|].
    + rewrite length_app. simpl.
      destruct ps as [|q ps]; simpl in *; [done|].
      destruct Hge as [_ Hge]. apply Forall_cons in Hall as [Hq _].
      split; [lia|done].
    + exists l'. split; [done|]. rewrite Hlen, length_app. simpl. lia.
Qed.

(** C1, as stated, fails when an index is skipped: after the updates 0, 2, 2
    the plan has three steps for two distinct indices, because the slot at
    position 2 is still empty when the second update for index 2 arrives. *)
Lemma step_count_with_gap :
  ¬ (∀ this ps w,
       arrays w !! _steps this = Some [] →
       increasing_from_0 (index <$> ps) →
       ∃ r l, getSteps this (deliver this ps w) = Returned r (deliver this ps w) ∧
              arrays (deliver this ps w) !! r = Some l ∧
              length l = length (remove_dups (index <$> ps))).
Proof.
  intros H.
  destruct (H sample_plan sample_gapped_updates sample_world)
    as (r & l & Hr & Hl & Hlen).
  - vm_compute. reflexivity.
  - simpl. lia.
  - injection Hr as <-. vm_compute in Hl. injection Hl as <-.
    vm_compute in Hlen. discriminate Hlen.
Qed.

(** C1, amended: when the updates delivered to a new plan carry indices that
    start at 0 and never skip a value (each index repeats the previous one or
    exceeds it by one), the array returned by [getSteps] holds as many steps
    as there are distinct indices among the updates. *)
Theorem step_count_contiguous this ps w :
  arrays w !! _steps this = Some [] →
  contiguous_from_0 (index <$> ps) →
  ∃ r l, getSteps this (deliver this ps w) = Returned r (deliver this ps w) ∧
         arrays (deliver this ps w) !! r = Some l ∧
         length l = length (remove_dups (index <$> ps)).
Proof.
  intros Hw Hps. apply contiguous_from_0_gap_free in Hps.
  destruct (deliver_gap_free this ps w [] 0 [] Hw) as (l & Hl & Hk);
    [done| |done|].
  { nothing_seen. }
  exists (_steps this), l. split; [done|]. split; [done|].
  apply step_indices_length in Hk. rewrite Hk. simpl.
  apply length_first_observed.
Qed.

Lemma step_count_contiguous_witness :
  ∃ r l, getSteps sample_plan (deliver sample_plan sample_updates sample_world)
           = Returned r (deliver sample_plan sample_updates sample_world) ∧
         arrays (deliver sample_plan sample_updates sample_world) !! r = Some l ∧
         length l = length (remove_dups (index <$> sample_updates)).
Proof.
  refine (step_count_contiguous sample_plan sample_updates sample_world _ _).
  - vm_compute. reflexivity.
  - simpl. lia.
Defined.

(** The scenario of the specification: three updates, two steps. *)
Example scenario_two_steps :
  arrays (deliver sample_plan sample_updates sample_world) !! _steps sample_plan
  = Some [0%nat; 1%nat] ∧
  (λ o, (_index o, value <$> _description o, length (_parts o)))
    <$> objects (deliver sample_plan sample_updates sample_world) !! 0%nat
  = Some (0, Some "Step one continues", 2%nat) ∧
  (λ o, (_index o, value <$> _description o, length (_parts o)))
    <$> objects (deliver sample_plan sample_updates sample_world) !! 1%nat
  = Some (1, Some "Step two", 1%nat).
Proof. vm_compute. done. Qed.

(** C7, as stated, fails when an index is skipped: after the updates 0, 3, 4,
    3 the steps carry the indices 0, 3, 4, 3, whereas the order of first
    observation is 0, 3, 4; the second update for index 3 found the slot at
    position 3 empty and created a second step behind the one for index 4. *)
Lemma steps_not_in_first_observed_order :
  ¬ (∀ this ps w,
       arrays w !! _steps this = Some [] →
       ∃ l, arrays (deliver this ps w) !! _steps this = Some l ∧
            step_indices (deliver this ps w) l
            = Some (first_observed (index <$> ps))).
Proof.
  intros H.
  destruct (H sample_plan sample_gapped_updates' sample_world) as (l & Hl & Hk).
  - vm_compute. reflexivity.
  - vm_compute in Hl. injection Hl as <-. vm_compute in Hk. discriminate Hk.
Qed.

Example steps_after_0_3_4_3 :
  step_indices (deliver sample_plan sample_gapped_updates' sample_world)
    [0%nat; 1%nat; 2%nat; 3%nat] = Some [0; 3; 4; 3].
Proof. vm_compute. reflexivity. Qed.

Lemma exec_appends op w a l :
  arrays w !! a = Some l →
  ∃ l1, arrays (exec op w) !! a = Some (l ++ l1) ∧ (length l1 ≤ 1)%nat ∧
    (l1 = [] ∨ ∃ this p, op = OpUpdateSteps this p ∧ _steps this = a ∧
                         array_get l (index p) = None).
Proof.
  intros Hl.
  assert (∀ w', arrays w' = arrays w →
            ∃ l1, arrays w' !! a = Some (l ++ l1) ∧ (length l1 ≤ 1)%nat ∧
              (l1 = [] ∨ ∃ this p, op = OpUpdateSteps this p ∧ _steps this = a ∧
                                   array_get l (index p) = None)) as Hsame.
  { intros w' ->. exists []. rewrite app_nil_r. split; [done|].
    split; [simpl; lia|by left]. }
  destruct op as [sid|this|this p|this|sid p|this p|this]; simpl;
    try (by apply Hsame).
  - exists []. rewrite app_nil_r. split; [|split; [simpl; lia|by left]].
    rewrite lookup_insert_ne; [done|].
    intros Ha. pose proof (is_fresh (dom (arrays w))) as Hfresh.
    rewrite Ha in Hfresh. apply Hfresh, elem_of_dom. by eexists.
  - destruct (arrays w !! _steps this) as [l0|] eqn:Hl0.
    + rewrite (updateSteps_unfold _ _ _ _ Hl0).
      destruct (array_get l0 (index p)) as [s|] eqn:Hget.
      * apply Hsame, updateStep_arrays.
      * simpl. destruct (decide (_steps this = a)) as [Ha|Ha].
        -- rewrite Ha in Hl0. rewrite Hl0 in Hl. injection Hl as ->.
           eexists [_]. rewrite Ha, lookup_insert_eq. split; [done|].
           split; [simpl; lia|]. right. by exists this, p.
        -- exists []. rewrite app_nil_r, lookup_insert_ne by done.
           split; [done|]. split; [simpl; lia|by left].
    + apply Hsame. unfold updateSteps. unfold_M. by rewrite Hl0.
  - destruct (arrays w !! _steps this) as [l0|] eqn:Hl0.
    + apply Hsame. by rewrite (dispose_unfold _ _ _ Hl0).
    + apply Hsame. unfold dispose. unfold_M. by rewrite Hl0.
  - apply Hsame, updateStep_arrays.
Qed.

Lemma deliver_appends_bounded this ps w l :
  arrays w !! _steps this = Some l →
  ∃ l', arrays (deliver this ps w) !! _steps this = Some (l ++ l') ∧
        (length l' ≤ length ps)%nat.
Proof.
  revert w l. induction ps as [|p ps IH]; intros w l Hl; simpl.
  - exists []. rewrite app_nil_r. split; [done|]. simpl. lia.
  - destruct (exec_appends (OpUpdateSteps this p) w _ l Hl) as (l1 & Hl1 & Hlen & _).
    destruct (IH _ _ Hl1) as (l' & Hl' & Hlen'). exists (l1 ++ l').
    rewrite app_assoc. split; [done|]. rewrite length_app. lia.
Qed.

(** C7, amended: no operation reorders or removes steps.  Every operation of
    the component leaves the steps that are in a plan's array where they are
    and appends at most one step, at the end; a step is appended only by
    [updateSteps] on that plan, when the slot at the update's index is empty.
    So, whatever updates are delivered, the steps that were in the plan stay
    in front and at most one step per update follows them.  When the updates
    delivered to a new plan skip no index (each index was met before or is the
    number of distinct indices met so far), the indices of the steps are the
    indices of the updates in the order of first observation. *)
Theorem steps_appended_in_first_observed_order this ps w l :
  arrays w !! _steps this = Some l →
  (∀ op, ∃ l1, arrays (exec op w) !! _steps this = Some (l ++ l1) ∧
      (length l1 ≤ 1)%nat ∧
      (l1 = [] ∨ ∃ this' p, op = OpUpdateSteps this' p ∧
                            _steps this' = _steps this ∧
                            array_get l (index p) = None)) ∧
  ∃ l', arrays (deliver this ps w) !! _steps this = Some (l ++ l') ∧
    (length l' ≤ length ps)%nat ∧
    (l = [] → gap_free 0 (index <$> ps) →
       step_indices (deliver this ps w) l' = Some (first_observed (index <$> ps))).
Proof.
  intros Hl. split; [intros op; by apply exec_appends|].
  destruct (deliver_appends_bounded this ps w l Hl) as (l' & Hl' & Hlen).
  exists l'. split; [done|]. split; [done|]. intros -> Hgap.
  destruct (deliver_gap_free this ps w [] 0 [] Hl) as (l'' & Hl'' & Hk);
    [done| |done|].
  { nothing_seen. }
  rewrite Hl' in Hl''. injection Hl'' as <-. exact Hk.
Qed.

Lemma steps_appended_in_first_observed_order_witness :
  (∃ l1, arrays (exec (OpUpdateSteps sample_plan (update 0 "a")) sample_world)
           !! _steps sample_plan = Some ([] ++ l1) ∧ (length l1 ≤ 1)%nat) ∧
  ∃ l', arrays (deliver sample_plan sample_revisiting_updates sample_world)
          !! _steps sample_plan = Some ([] ++ l') ∧
    (length l' ≤ length sample_revisiting_updates)%nat ∧
    step_indices (deliver sample_plan sample_revisiting_updates sample_world) l'
    = Some [0; 1; 2].
Proof.
  destruct (steps_appended_in_first_observed_order sample_plan
              sample_revisiting_updates sample_world [])
    as (Hop & l' & Hl' & Hlen & Hk).
  - vm_compute. reflexivity.
  - split.
    + destruct (Hop (OpUpdateSteps sample_plan (update 0 "a")))
        as (l1 & Hl1 & Hlen1 & _).
      exists l1. split; [exact Hl1|exact Hlen1].
    + exists l'. split; [exact Hl'|]. split; [exact Hlen|].
      apply Hk; [reflexivity|]. simpl. lia.
Defined.

(** ** The completion flag *)

Lemma exec_isComplete op w :
  map_Forall (λ _ o, _isComplete o = false) (objects w) →
  map_Forall (λ _ o, _isComplete o = false) (objects (exec op w)).
Proof.
  intros Hw. destruct op as [sid|this|this p|this|sid p|this p|this]; simpl;
    try done.
  - destruct (arrays w !! _steps this) as [l|] eqn:Hl.
    + rewrite (updateSteps_unfold _ _ _ _ Hl).
      destruct (array_get l (index p)) as [s|].
      * by apply updateStep_isComplete.
      * simpl. by apply map_Forall_insert_2.
    + unfold updateSteps. unfold_M. by rewrite Hl.
  - destruct (arrays w !! _steps this) as [l|] eqn:Hl.
    + by rewrite (dispose_unfold _ _ _ Hl).
    + unfold dispose. unfold_M. by rewrite Hl.
  - by apply map_Forall_insert_2.
  - by apply updateStep_isComplete.
Qed.

Lemma run_isComplete ops w :
  map_Forall (λ _ o, _isComplete o = false) (objects w) →
  map_Forall (λ _ o, _isComplete o = false) (objects (run ops w)).
Proof.
  revert w. induction ops as [|op ops IH]; intros w Hw; simpl; [done|].
  by apply IH, exec_isComplete.
Qed.

(** C9: the completion flag of a step is false when the step is constructed
    and no operation of the component sets it: in the store reached by any
    program from the empty store, every step has [_isComplete = false]. *)
Theorem isComplete_never_set ops this o :
  objects (run ops empty_world) !! this = Some o →
  _isComplete o = false.
Proof.
  intros Ho. eapply (run_isComplete ops empty_world); [|exact Ho].
  apply map_Forall_empty.
Qed.

Lemma isComplete_never_set_witness :
  ∃ o, objects (run sample_program empty_world) !! 0%nat = Some o ∧
       value <$> _description o = Some "AB" ∧
       _isComplete o = false.
Proof.
  eexists. split; [vm_compute; reflexivity|]. split; [reflexivity|].
  refine (isComplete_never_set sample_program 0%nat _ _).
  vm_compute. reflexivity.
Defined.

End PlanFacts.

(** * Properties of the ordering of semantic search results *)

Module SideCarFacts.
Import SideCar.

Local Open Scope Q_scope.

(** ** The comparator *)

Lemma compareFn_gt a b : (compareFn a b ?= 0) = Gt → may_precede b a.
Proof.
  rewrite <- Qgt_alt. unfold compareFn, may_precede.
  destruct (score a) as [sa|], (score b) as [sb|]; try done; lra.
Qed.

Lemma compareFn_not_gt a b : (compareFn a b ?= 0) ≠ Gt → may_precede a b.
Proof.
  rewrite <- Qgt_alt. unfold compareFn, may_precede.
  destruct (score a) as [sa|], (score b) as [sb|]; try done; lra.
Qed.

Lemma may_precede_trans a b c : may_precede a b → may_precede b c → may_precede a c.
Proof.
  unfold may_precede.
  destruct (score a) as [sa|], (score b) as [sb|], (score c) as [sc|];
    try done; lra.
Qed.

Lemma same_rank_gt c x y :
  (compareFn x y ?= 0) = Gt → same_rank c x → same_rank c y → False.
Proof.
  rewrite <- Qgt_alt. unfold same_rank. rewrite !Is_true_true, !Qeq_bool_iff.
  unfold compareFn.
  destruct (score c) as [sc|], (score x) as [sx|], (score y) as [sy|];
    try done; lra.
Qed.

(** ** The sort *)

Lemma sort_insert_Permutation {A} (cmp : A → A → Q) x l :
  sort_insert cmp x l ≡ₚ x :: l.
Proof.
  induction l as [|y l IH]; simpl; [done|].
  destruct (cmp x y ?= 0); try done.
  rewrite IH. apply Permutation_swap.
Qed.

Lemma sort_Permutation {A} (cmp : A → A → Q) l : sort cmp l ≡ₚ l.
Proof.
  induction l as [|x l IH]; simpl; [done|].
  by rewrite sort_insert_Permutation, IH.
Qed.

Lemma sort_insert_sorted x l :
  StronglySorted may_precede l →
  StronglySorted may_precede (sort_insert compareFn x l).
Proof.
  induction 1 as [|y l Hl IH Hy]; simpl.
  - repeat constructor.
  - destruct (compareFn x y ?= 0) eqn:Hc.
    + assert (may_precede x y) as Hxy by (apply compareFn_not_gt; congruence).
      repeat constructor; [done|done|done|].
      eapply Forall_impl; [exact Hy|]. intros z. by apply may_precede_trans.
    + assert (may_precede x y) as Hxy by (apply compareFn_not_gt; congruence).
      repeat constructor; [done|done|done|].
      eapply Forall_impl; [exact Hy|]. intros z. by apply may_precede_trans.
    + constructor; [done|]. rewrite sort_insert_Permutation.
      constructor; [|done]. by apply compareFn_gt.
Qed.

Lemma sort_sorted l : StronglySorted may_precede (sort compareFn l).
Proof.
  induction l as [|x l IH]; simpl; [constructor|]. by apply sort_insert_sorted.
Qed.

Lemma sort_insert_stable c x l :
  filter (same_rank c) (sort_insert compareFn x l) = filter (same_rank c) (x :: l).
Proof.
  induction l as [|y l IH]; simpl; [done|].
  destruct (compareFn x y ?= 0) eqn:Hc; try done.
  rewrite (filter_cons _ y), IH, !filter_cons.
  destruct (decide (same_rank c y)) as [Hy|Hy], (decide (same_rank c x)) as [Hx|Hx];
    try done.
  destruct (same_rank_gt c x y Hc Hx Hy).
Qed.

Lemma sort_stable c l :
  filter (same_rank c) (sort compareFn l) = filter (same_rank c) l.
Proof.
  induction l as [|x l IH]; simpl; [done|].
  by rewrite sort_insert_stable, !filter_cons, IH.
Qed.

Lemma same_rank_refl c : same_rank c c.
Proof.
  unfold same_rank. rewrite Is_true_true, Qeq_bool_iff. unfold compareFn.
  destruct (score c); [lra|done].
Qed.

Lemma may_precede_antisym a b : may_precede a b → may_precede b a → same_rank a b.
Proof.
  unfold same_rank. rewrite Is_true_true, Qeq_bool_iff.
  unfold may_precede, compareFn.
  destruct (score a) as [sa|], (score b) as [sb|]; try done; lra.
Qed.

(** The order is determined by the comparator alone: there is one sorted
    rearrangement that keeps equal entries in their order, whichever stable
    algorithm the runtime uses. *)
Lemma sorted_stable_unique l1 l2 :
  StronglySorted may_precede l1 →
  StronglySorted may_precede l2 →
  (∀ c, filter (same_rank c) l1 = filter (same_rank c) l2) →
  l1 = l2.
Proof.
  intros H1. revert l2. induction H1 as [|x l1 Hl1 IH Hx]; intros l2 H2 Hf.
  - destruct l2 as [|y l2]; [done|].
    specialize (Hf y). rewrite filter_nil, filter_cons in Hf.
    destruct (decide (same_rank y y)) as [|Hn]; [done|].
    destruct Hn. apply same_rank_refl.
  - destruct l2 as [|y l2].
    { specialize (Hf x). rewrite filter_nil, filter_cons in Hf.
      destruct (decide (same_rank x x)) as [|Hn]; [done|].
      destruct Hn. apply same_rank_refl. }
    apply StronglySorted_inv in H2 as [Hl2 Hy].
    assert (x = y) as ->.
    { assert (x ∈ y :: l2) as Hxin.
      { eapply (list_elem_of_filter (same_rank x)). rewrite <- Hf, filter_cons.
        rewrite decide_True by apply same_rank_refl. by left. }
      assert (y ∈ x :: l1) as Hyin.
      { eapply (list_elem_of_filter (same_rank y)). rewrite Hf, filter_cons.
        rewrite decide_True by apply same_rank_refl. by left. }
      apply elem_of_cons in Hxin as [?|Hxin]; [done|].
      apply elem_of_cons in Hyin as [?|Hyin]; [done|].
      rewrite Forall_forall in Hx, Hy.
      pose proof (may_precede_antisym x y (Hx _ Hyin) (Hy _ Hxin)) as Hxy.
      specialize (Hf x). rewrite !filter_cons in Hf.
      rewrite decide_True in Hf by apply same_rank_refl.
      rewrite decide_True in Hf by done. by injection Hf. }
    f_equal. apply IH; [done|]. intros c. specialize (Hf c).
    rewrite !filter_cons in Hf. destruct (decide (same_rank c y)); [|done].
    by injection Hf.
Qed.

(** A list ordered by [may_precede] is its scored entries, with scores that
    never increase, followed by its entries without a score. *)
Lemma sorted_scored_first l :
  StronglySorted may_precede l →
  ∃ scored unscored, l = scored ++ unscored ∧
    Forall (λ c, is_Some (score c)) scored ∧
    StronglySorted may_precede scored ∧
    Forall (λ c, score c = None) unscored.
Proof.
  induction 1 as [|x l Hl (scored & unscored & -> & Hs & Hss & Hu) Hx].
  - exists [], []. repeat split; constructor.
  - destruct (score x) as [sx|] eqn:Hsx.
    + exists (x :: scored), unscored. split; [done|]. split; [|split; [|done]].
      * constructor; [by rewrite Hsx|done].
      * constructor; [done|]. by apply Forall_app in Hx as [? _].
    + exists [], (x :: scored ++ unscored). split; [done|]. split; [done|].
      split; [constructor|].
      constructor; [done|]. eapply Forall_impl; [exact Hx|].
      intros y. unfold may_precede. rewrite Hsx. by destruct (score y).
Qed.

(** C8: [getSemanticSearchResult] returns the entries made from the spans in
    the order the comparator sort gives them.  That order is a rearrangement
    of the spans of the response in which every span with a score stands
    before every span without one, the scores of the spans that have one
    never increase, and spans that compare equal keep the order they had in
    the response. *)
Theorem getSemanticSearchResult_order path_join repoPath code_spans :
  ∃ sorted,
    getSemanticSearchResult path_join repoPath code_spans
    = map (toEmbeddings path_join repoPath) sorted ∧
    sorted ≡ₚ code_spans ∧
    StronglySorted may_precede sorted ∧
    (∃ scored unscored, sorted = scored ++ unscored ∧
       Forall (λ c, is_Some (score c)) scored ∧
       StronglySorted may_precede scored ∧
       Forall (λ c, score c = None) unscored) ∧
    (∀ c, filter (same_rank c) sorted = filter (same_rank c) code_spans).
Proof.
  exists (sort compareFn code_spans). split; [done|].
  split; [apply sort_Permutation|]. split; [apply sort_sorted|].
  split; [apply sorted_scored_first, sort_sorted|].
  intros c. apply sort_stable.
Qed.

(** Any sorted rearrangement that keeps equal spans in their order is the one
    computed here. *)
Corollary sort_determined l l' :
  StronglySorted may_precede l' →
  (∀ c, filter (same_rank c) l' = filter (same_rank c) l) →
  l' = sort compareFn l.
Proof.
  intros Hs Hf. apply sorted_stable_unique; [done|apply sort_sorted|].
  intros c. by rewrite sort_stable.
Qed.

Example getSemanticSearchResult_example :
  sort compareFn [span "a" None; span "b" (Some (1#2)); span "c" (Some (3#4));
                  span "d" None; span "e" (Some (2#4))]
  = [span "c" (Some (3#4)); span "b" (Some (1#2)); span "e" (Some (2#4));
     span "a" None; span "d" None].
Proof. reflexivity. Qed.

End SideCarFacts.

(** * Further properties of the plan model *)

Module PlanMore.
Import Plan PlanFacts.

(** ** The effect of one operation on the step objects *)

Lemma updateStep_objects_step this p w :
  objects_step w (world_of (updateStep this p w)).
Proof.
  rewrite updateStep_unfold.
  destruct (objects w !! this) as [o|] eqn:Ho; [|by constructor].
  case_bool_decide as Hi; [by constructor|].
  destruct (description p) as [d|] eqn:Hd; [|by constructor].
  destruct (_description o) as [d0|] eqn:Hd0; [|by constructor].
  assert (_index o = index p) by (by destruct (decide (_index o = index p))).
  by eapply (objects_updated _ _ this o p d0 d).
Qed.

Lemma exec_objects_step op w : objects_step w (exec op w).
Proof.
  destruct op as [sid|this|this p|this|sid p|this p|this]; simpl;
    try by constructor.
  - destruct (arrays w !! _steps this) as [l|] eqn:Hl.
    + rewrite (updateSteps_unfold _ _ _ _ Hl).
      destruct (array_get l (index p)) as [s|].
      * apply updateStep_objects_step.
      * by eapply objects_new.
    + unfold updateSteps. unfold_M. rewrite Hl. by constructor.
  - destruct (arrays w !! _steps this) as [l|] eqn:Hl.
    + rewrite (dispose_unfold _ _ _ Hl). by constructor.
    + unfold dispose. unfold_M. rewrite Hl. by constructor.
  - by eapply objects_new.
  - apply updateStep_objects_step.
Qed.

(** ** Identity of steps *)

Lemma exec_step_kept op w s o :
  objects w !! s = Some o →
  ∃ o', objects (exec op w) !! s = Some o' ∧
    id o' = id o ∧ step_sessionId o' = step_sessionId o ∧
    _index o' = _index o ∧ _parts o `prefix_of` _parts o'.
Proof.
  intros Ho. destruct (exec_objects_step op w) as [Hsame _|sid p Hnew _|s' o0 p d0 d Ho0 _ _ _ Hupd _].
  - rewrite Hsame. by exists o.
  - rewrite Hnew, lookup_insert_ne; [by exists o|].
    intros <-. by rewrite fresh_step_unused in Ho.
  - rewrite Hupd. destruct (decide (s' = s)) as [->|Hne].
    + rewrite lookup_insert_eq. eexists. split; [done|].
      rewrite Ho in Ho0. injection Ho0 as <-. simpl.
      repeat split; try done. by apply prefix_app_r.
    + rewrite lookup_insert_ne by done. by exists o.
Qed.

(** X1: no operation removes a step or changes its id, session or index, and
    the fragments a step has are kept, in their order, in front of any later
    ones. *)
Theorem step_identity_kept ops w s o :
  objects w !! s = Some o →
  ∃ o', objects (run ops w) !! s = Some o' ∧
    id o' = id o ∧ step_sessionId o' = step_sessionId o ∧
    _index o' = _index o ∧ _parts o `prefix_of` _parts o'.
Proof.
  revert w o. induction ops as [|op ops IH]; intros w o Ho; simpl.
  - by exists o.
  - destruct (exec_step_kept op w s o Ho) as (o1 & Ho1 & Hid & Hsid & Hidx & Hp).
    destruct (IH _ _ Ho1) as (o' & Ho' & Hid' & Hsid' & Hidx' & Hp').
    exists o'. split; [done|]. rewrite Hid', Hsid', Hidx'.
    repeat split; try done. by etrans.
Qed.

Lemma step_identity_kept_witness :
  ∃ o', objects (run [OpUpdateStep 0%nat (update 0 "B"); OpDisposeStep 0%nat]
                   sample_step_world) !! 0%nat = Some o' ∧
    id o' = "step_0" ∧ step_sessionId o' = "s" ∧
    _index o' = 0 ∧ [update 0 "A"] `prefix_of` _parts o'.
Proof.
  refine (step_identity_kept [OpUpdateStep 0%nat (update 0 "B"); OpDisposeStep 0%nat]
            sample_step_world 0%nat sample_step _).
  vm_compute. reflexivity.
Defined.

(** ** Step ids *)

Lemma step_id_inj (k1 k2 : nat) :
  "step_" +:+ pretty k1 = "step_" +:+ pretty k2 → k1 = k2.
Proof. intros H. injection H as H. by apply (inj pretty). Qed.

Lemma exec_ids op w :
  (∀ s o, objects w !! s = Some o →
     ∃ k, (k < nextId w)%nat ∧ id o = "step_" +:+ pretty k) →
  (∀ s1 s2 o1 o2, objects w !! s1 = Some o1 → objects w !! s2 = Some o2 →
     id o1 = id o2 → s1 = s2) →
  (∀ s o, objects (exec op w) !! s = Some o →
     ∃ k, (k < nextId (exec op w))%nat ∧ id o = "step_" +:+ pretty k) ∧
  (∀ s1 s2 o1 o2, objects (exec op w) !! s1 = Some o1 →
     objects (exec op w) !! s2 = Some o2 → id o1 = id o2 → s1 = s2).
Proof.
  intros Hk Hinj.
  destruct (exec_objects_step op w) as [Hsame Hn|sid p Hnew Hn|s' o0 p d0 d Ho0 _ _ _ Hupd Hn];
    rewrite Hn.
  - rewrite Hsame. done.
  - rewrite Hnew. split.
    + intros s o. rewrite lookup_insert. case_decide as Hs.
      * intros [= <-]. exists (nextId w). split; [lia|done].
      * intros Ho. destruct (Hk s o Ho) as (k & Hlt & Hid). exists k. split; [lia|done].
    + intros s1 s2 o1 o2. rewrite !lookup_insert.
      case_decide as H1; case_decide as H2; try congruence.
      * intros [= <-] Ho2 Hid. simpl in Hid.
        destruct (Hk _ _ Ho2) as (k & Hlt & Hid2). rewrite Hid2 in Hid.
        apply step_id_inj in Hid. lia.
      * intros Ho1 [= <-] Hid. simpl in Hid.
        destruct (Hk _ _ Ho1) as (k & Hlt & Hid1). rewrite Hid1 in Hid.
        apply step_id_inj in Hid. lia.
      * apply Hinj.
  - rewrite Hupd. split.
    + intros s o. rewrite lookup_insert. case_decide as Hs.
      * intros [= <-]. simpl. by apply (Hk s').
      * apply Hk.
    + intros s1 s2 o1 o2. rewrite !lookup_insert.
      case_decide as H1; case_decide as H2; try congruence.
      * intros [= <-] Ho2 Hid. simpl in Hid. subst s1. by apply (Hinj s' s2 o0 o2).
      * intros Ho1 [= <-] Hid. simpl in Hid. subst s2. by apply (Hinj s1 s' o1 o0).
      * apply Hinj.
Qed.

Lemma run_ids ops w :
  (∀ s o, objects w !! s = Some o →
     ∃ k, (k < nextId w)%nat ∧ id o = "step_" +:+ pretty k) →
  (∀ s1 s2 o1 o2, objects w !! s1 = Some o1 → objects w !! s2 = Some o2 →
     id o1 = id o2 → s1 = s2) →
  (∀ s o, objects (run ops w) !! s = Some o →
     ∃ k, (k < nextId (run ops w))%nat ∧ id o = "step_" +:+ pretty k) ∧
  (∀ s1 s2 o1 o2, objects (run ops w) !! s1 = Some o1 →
     objects (run ops w) !! s2 = Some o2 → id o1 = id o2 → s1 = s2).
Proof.
  revert w. induction ops as [|op ops IH]; intros w Hk Hinj; simpl; [done|].
  destruct (exec_ids op w Hk Hinj) as [Hk' Hinj']. by apply IH.
Qed.

(** X2: in the store reached by any program, every step has an id of the form
    [step_k] with [k] below the counter [nextId], and different steps have
    different ids. *)
Theorem step_ids_unique ops s1 s2 o1 o2 :
  objects (run ops empty_world) !! s1 = Some o1 →
  objects (run ops empty_world) !! s2 = Some o2 →
  (∃ k, (k < nextId (run ops empty_world))%nat ∧ id o1 = "step_" +:+ pretty k) ∧
  (id o1 = id o2 → s1 = s2).
Proof.
  intros Ho1 Ho2.
  destruct (run_ids ops empty_world) as [Hk Hinj].
  - intros s o. simpl. by rewrite lookup_empty.
  - intros ? ? ? ?. simpl. by rewrite lookup_empty.
  - split; [by eapply Hk|]. by eapply Hinj.
Qed.

Lemma step_ids_unique_witness :
  ∃ o1 o2,
    objects (run sample_two_step_program empty_world) !! 0%nat = Some o1 ∧
    objects (run sample_two_step_program empty_world) !! 1%nat = Some o2 ∧
    id o1 = "step_0" ∧ id o2 = "step_1" ∧ id o1 ≠ id o2.
Proof.
  eexists _, _. split; [vm_compute; reflexivity|].
  split; [vm_compute; reflexivity|]. split; [reflexivity|].
  split; [reflexivity|]. intros Heq.
  pose proof (proj2 (step_ids_unique sample_two_step_program 0%nat 1%nat _ _
                       eq_refl eq_refl) Heq) as H.
  discriminate H.
Defined.

(** ** Fragments *)

Lemma run_invariant (P : World → Prop) :
  (∀ op w, P w → P (exec op w)) → ∀ ops w, P w → P (run ops w).
Proof.
  intros Hstep ops. induction ops as [|op ops IH]; intros w Hw; simpl; [done|].
  by apply IH, Hstep.
Qed.

Lemma exec_parts op w :
  (∀ s o, objects w !! s = Some o →
     _parts o ≠ [] ∧ Forall (λ p, index p = _index o) (_parts o)) →
  ∀ s o, objects (exec op w) !! s = Some o →
    _parts o ≠ [] ∧ Forall (λ p, index p = _index o) (_parts o).
Proof.
  intros Hw s o.
  destruct (exec_objects_step op w)
    as [Hsame _|sid p Hnew _|s' o0 p d0 d Ho0 Hidx _ _ Hupd _].
  - rewrite Hsame. apply Hw.
  - rewrite Hnew, lookup_insert. case_decide; [|apply Hw].
    intros [= <-]. simpl. split; [done|]. by constructor.
  - rewrite Hupd, lookup_insert. case_decide; [|apply Hw].
    intros [= <-]. simpl. destruct (Hw _ _ Ho0) as [Hne Hall]. split.
    + by destruct (_parts o0).
    + apply Forall_app. split; [done|]. by constructor.
Qed.

(** X3: in the store reached by any program, a step has at least one fragment,
    and every fragment of a step carries the step's own index. *)
Theorem fragments_carry_step_index ops s o :
  objects (run ops empty_world) !! s = Some o →
  _parts o ≠ [] ∧ Forall (λ p, index p = _index o) (_parts o).
Proof.
  revert s o.
  apply (run_invariant
           (λ w, ∀ s o, objects w !! s = Some o →
              _parts o ≠ [] ∧ Forall (λ p, index p = _index o) (_parts o))).
  - apply exec_parts.
  - intros s o. simpl. by rewrite lookup_empty.
Qed.

Lemma fragments_carry_step_index_witness :
  ∃ o, objects (run sample_program empty_world) !! 0%nat = Some o ∧
    _parts o = [update 0 "A"; update 0 "B"] ∧
    Forall (λ p, index p = _index o) (_parts o).
Proof.
  eexists. split; [vm_compute; reflexivity|]. split; [reflexivity|].
  refine (proj2 (fragments_carry_step_index sample_program 0%nat _ _)).
  vm_compute. reflexivity.
Defined.

(** ** Updates that are rejected or announced *)

(** X4: when the slot at the update's index holds a step made for another
    index, [updateSteps] throws the index-mismatch error of that step and
    the store stays as it was. *)
Theorem updateSteps_rejects_foreign_slot this p w l s o :
  arrays w !! _steps this = Some l →
  array_get l (index p) = Some s →
  objects w !! s = Some o →
  _index o ≠ index p →
  updateSteps this p w = Thrown IndexMismatch w.
Proof.
  intros Hl Hs Ho Hne.
  rewrite (updateSteps_unfold _ _ _ _ Hl), Hs, updateStep_unfold, Ho.
  by rewrite bool_decide_eq_true_2.
Qed.

Lemma updateSteps_rejects_foreign_slot_witness :
  updateSteps sample_plan (update 1 "c") sample_gap_world
  = Thrown IndexMismatch sample_gap_world.
Proof.
  refine (updateSteps_rejects_foreign_slot sample_plan (update 1 "c")
            sample_gap_world [0%nat; 1%nat] 1%nat
            {| id := "step_1"; step_sessionId := "s"; _index := 2;
               _description := Some (text "b"); _parts := [update 2 "b"];
               _isComplete := false |} _ _ _ _).
  - vm_compute. reflexivity.
  - reflexivity.
  - vm_compute. reflexivity.
  - simpl. lia.
Defined.

(** X5: an [updateSteps] call either leaves the whole store as it was (it was
    a no-op or it threw), or fires exactly one notification, which names the
    one step that was created or changed; all other steps are untouched. *)
Theorem updateSteps_announces_change this p w :
  world_of (updateSteps this p w) = w ∨
  ∃ s,
    (events (world_of (updateSteps this p w))
       = events w ++ [PlanDidChange this (addPlanStep s)] ∧
       objects w !! s = None ∨
     events (world_of (updateSteps this p w)) = events w ++ [StepDidChange s] ∧
       is_Some (objects w !! s)) ∧
    is_Some (objects (world_of (updateSteps this p w)) !! s) ∧
    ∀ s', s' ≠ s →
      objects (world_of (updateSteps this p w)) !! s' = objects w !! s'.
Proof.
  destruct (arrays w !! _steps this) as [l|] eqn:Hl.
  - rewrite (updateSteps_unfold _ _ _ _ Hl).
    destruct (array_get l (index p)) as [s|].
    + rewrite updateStep_unfold.
      destruct (objects w !! s) as [o|] eqn:Ho; [|by left].
      case_bool_decide; [by left|].
      destruct (description p) as [d|]; [|by left].
      destruct (_description o) as [d0|]; [|by left].
      right. exists s. simpl. split; [right; by rewrite Ho|].
      rewrite lookup_insert_eq. split; [done|].
      intros s' Hs'. by rewrite lookup_insert_ne.
    + right. eexists. simpl. split; [left; split; [done|apply fresh_step_unused]|].
      rewrite lookup_insert_eq. split; [done|].
      intros s' Hs'. by rewrite lookup_insert_ne.
  - left. unfold updateSteps. unfold_M. by rewrite Hl.
Qed.

(** ** What a delivery accumulates *)

Lemma accumulated_text_snoc qs p d :
  description p = Some d →
  accumulated_text (qs ++ [p]) = accumulated_text qs +:+ value d.
Proof. intros Hd. unfold accumulated_text. rewrite foldl_app. simpl. by rewrite Hd. Qed.

Lemma updates_for_cons j p ps :
  updates_for j (p :: ps)
  = if decide (index p = Z.of_nat j) then p :: updates_for j ps
    else updates_for j ps.
Proof. unfold updates_for. by rewrite filter_cons. Qed.

Lemma deliver_accumulates_from this ps w l F :
  arrays w !! _steps this = Some l →
  accumulated w l F →
  (∀ j, (length l ≤ j)%nat → F j = []) →
  gap_free (length l) (index <$> ps) →
  Forall (λ p, is_Some (description p)) ps →
  deliver_errors this ps w = [] ∧
  ∃ l', arrays (deliver this ps w) !! _steps this = Some l' ∧
    accumulated (deliver this ps w) l' (λ j, F j ++ updates_for j ps).
Proof.
  revert w l F. induction ps as [|p ps IH]; intros w l F Hl Hacc HF Hgap Hdesc.
  - split; [done|]. exists l. split; [done|].
    intros j s Hs. destruct (Hacc j s Hs) as (o & d & ? & ? & ? & ? & ?).
    exists o, d. unfold updates_for. rewrite filter_nil, app_nil_r. done.
  - simpl in Hgap. destruct Hgap as [Hi Hgap].
    apply Forall_cons in Hdesc as [[d Hd] Hdesc].
    set (F' := λ j, if decide (index p = Z.of_nat j) then F j ++ [p] else F j).
    assert (∀ j, F' j ++ updates_for j ps = F j ++ updates_for j (p :: ps)) as HF'.
    { intros j. unfold F'. rewrite updates_for_cons.
      destruct (decide (index p = Z.of_nat j)); [by rewrite <- app_assoc|done]. }
    assert (∃ w1 l1, updateSteps this p w = Returned tt w1 ∧
              arrays w1 !! _steps this = Some l1 ∧ accumulated w1 l1 F' ∧
              (∀ j, (length l1 ≤ j)%nat → F' j = []) ∧
              gap_free (length l1) (index <$> ps)) as (w1 & l1 & Hw1 & Hl1 & Hacc1 & HF1 & Hgap1).
    { destruct (decide (index p = Z.of_nat (length l))) as [Hn|Hn].
      - (* the next index: a step is created *)
        rewrite bool_decide_eq_true_2 in Hgap by done.
        rewrite (updateSteps_unfold _ _ _ _ Hl), array_get_ge by lia.
        eexists _, (l ++ [_]). split; [reflexivity|]. simpl.
        rewrite lookup_insert_eq. split; [done|]. split; [|split].
        + intros j s Hs. unfold F'.
          destruct (decide (j < length l)%nat) as [Hj|Hj].
          * rewrite lookup_app_l in Hs by done.
            destruct (Hacc j s Hs) as (o & d0 & Ho & ? & ? & ? & ?).
            exists o, d0. simpl. rewrite lookup_insert_ne.
            { rewrite decide_False by lia. done. }
            intros <-. by rewrite fresh_step_unused in Ho.
          * apply lookup_lt_Some in Hs as Hlt. rewrite length_app in Hlt.
            simpl in Hlt. assert (j = length l) as -> by lia.
            rewrite lookup_app_r, Nat.sub_diag in Hs by done.
            injection Hs as <-. simpl. rewrite lookup_insert_eq.
            eexists _, d. split; [done|]. simpl.
            rewrite decide_True by done. rewrite (HF (length l)) by done.
            repeat split; try done. unfold accumulated_text. simpl.
            by rewrite Hd.
        + intros j Hj. rewrite length_app in Hj. simpl in Hj. unfold F'.
          rewrite decide_False by lia. apply HF. lia.
        + rewrite length_app. simpl.
          by replace (length l + 1)%nat with (S (length l)) by lia.
      - (* an index met before: its step is updated *)
        rewrite bool_decide_eq_false_2 in Hgap by done.
        destruct (array_get_lt l (index p)) as [s Hs]; [lia|].
        assert (l !! Z.to_nat (index p) = Some s) as Hs'.
        { unfold array_get in Hs. by rewrite bool_decide_eq_true_2 in Hs by lia. }
        destruct (Hacc _ _ Hs') as (o & d0 & Ho & Hidx & Hparts & Hd0 & Htext).
        rewrite (updateSteps_unfold _ _ _ _ Hl), Hs, updateStep_unfold, Ho, Hd, Hd0.
        rewrite bool_decide_eq_false_2 by (intros H; apply H; lia).
        eexists _, l. split; [reflexivity|]. simpl. split; [done|].
        split; [|split; [|done]].
        + intros j sj Hsj. unfold F'.
          destruct (Hacc j sj Hsj) as (oj & dj & Hoj & Hidxj & Hpj & Hdj & Htj).
          destruct (decide (s = sj)) as [<-|Hne].
          * rewrite Ho in Hoj. injection Hoj as <-.
            assert (j = Z.to_nat (index p)) as -> by lia. simpl.
            rewrite lookup_insert_eq. eexists _, _. split; [done|]. simpl.
            rewrite decide_True by lia. rewrite Hparts.
            repeat split; try done.
            by rewrite (accumulated_text_snoc _ _ _ Hd), <- Htext.
          * simpl. rewrite lookup_insert_ne by done. exists oj, dj.
            rewrite decide_False; [done|].
            intros Hj. apply Hne. assert (j = Z.to_nat (index p)) as -> by lia.
            congruence.
        + intros j Hj. unfold F'. rewrite decide_False by lia. by apply HF. }
    simpl. rewrite Hw1. simpl.
    destruct (IH w1 l1 F' Hl1 Hacc1 HF1 Hgap1 Hdesc) as (Herr & l' & Hl' & Hacc').
    split; [done|]. exists l'. split; [done|].
    intros j s Hs. destruct (Hacc' j s Hs) as (o & d' & ? & ? & ? & ? & ?).
    exists o, d'. rewrite <- HF'. done.
Qed.

(** X6: when the updates delivered to a new plan skip no index and all carry
    a description, no call throws, the step at position [j] has index [j],
    its fragments are the updates for index [j] in the order of delivery, and
    its description is the text of their descriptions put together in that
    order. *)
Theorem deliver_accumulates this ps w :
  arrays w !! _steps this = Some [] →
  gap_free 0 (index <$> ps) →
  Forall (λ p, is_Some (description p)) ps →
  deliver_errors this ps w = [] ∧
  ∃ l, arrays (deliver this ps w) !! _steps this = Some l ∧
    ∀ (j : nat) s, l !! j = Some s →
      ∃ o, objects (deliver this ps w) !! s = Some o ∧
        _index o = Z.of_nat j ∧
        _parts o = updates_for j ps ∧
        value <$> _description o = Some (accumulated_text (updates_for j ps)).
Proof.
  intros Hl Hgap Hdesc.
  destruct (deliver_accumulates_from this ps w [] (λ _, []) Hl) as (Herr & l & Hl' & Hacc);
    try done.
  split; [done|]. exists l. split; [done|]. intros j s Hs.
  destruct (Hacc j s Hs) as (o & d & Ho & Hidx & Hparts & Hd & Htext).
  exists o. simpl in *. rewrite Hd. simpl. by rewrite Htext.
Qed.

Lemma deliver_accumulates_witness :
  deliver_errors sample_plan sample_revisiting_updates sample_world = [] ∧
  ∃ l, arrays (deliver sample_plan sample_revisiting_updates sample_world)
         !! _steps sample_plan = Some l ∧
    ∀ (j : nat) s, l !! j = Some s →
      ∃ o, objects (deliver sample_plan sample_revisiting_updates sample_world)
             !! s = Some o ∧
        _index o = Z.of_nat j ∧
        _parts o = updates_for j sample_revisiting_updates ∧
        value <$> _description o
        = Some (accumulated_text (updates_for j sample_revisiting_updates)).
Proof.
  refine (deliver_accumulates sample_plan sample_revisiting_updates sample_world
            _ _ _).
  - vm_compute. reflexivity.
  - simpl. lia.
  - repeat constructor; by eexists.
Defined.

Example accumulated_text_revisited :
  accumulated_text (updates_for 0 sample_revisiting_updates) = "ac".
Proof. reflexivity. Qed.

(** ** Errors of a delivery *)

Lemma deliver_errors_cons this p ps w :
  deliver_errors this (p :: ps) w
  = match updateSteps this p w with
    | Returned _ _ => []
    | Thrown e _ => [e]
    end ++ deliver_errors this ps (world_of (updateSteps this p w)).
Proof. simpl. by destruct (updateSteps this p w). Qed.

Lemma updateStep_own_index this p w o :
  objects w !! this = Some o →
  _index o = index p →
  updateStep this p w = Returned tt (world_of (updateStep this p w)) ∨
  updateStep this p w = Thrown TypeError w.
Proof.
  intros Ho Hidx. rewrite updateStep_unfold, Ho.
  rewrite bool_decide_eq_false_2 by (intros H; by apply H).
  destruct (description p); [|by left].
  destruct (_description o); [by left|by right].
Qed.

Lemma deliver_gap_free_errors this ps w l n :
  arrays w !! _steps this = Some l →
  step_indices w l = Some (Z.of_nat <$> seq 0 n) →
  gap_free n (index <$> ps) →
  IndexMismatch ∉ deliver_errors this ps w.
Proof.
  revert w l n. induction ps as [|p ps IH]; intros w l n Hl Hk Hgap.
  - apply not_elem_of_nil.
  - simpl in Hgap. destruct Hgap as [Hi Hgap]. rewrite deliver_errors_cons.
    assert (length l = n) as Hlen.
    { apply step_indices_length in Hk. by rewrite length_fmap, length_seq in Hk. }
    rewrite elem_of_app. intros [Hhere|Hlater].
    + (* this call *)
      destruct (decide (index p = Z.of_nat n)) as [Hn|Hn].
      * rewrite (updateSteps_unfold _ _ _ _ Hl), array_get_ge in Hhere by lia.
        by apply elem_of_nil in Hhere.
      * destruct (array_get_lt l (index p)) as [s Hs]; [lia|].
        rewrite (updateSteps_unfold _ _ _ _ Hl), Hs in Hhere.
        assert (∃ o, objects w !! s = Some o ∧ _index o = index p) as (o & Ho & Hidx).
        { unfold array_get in Hs. rewrite bool_decide_eq_true_2 in Hs by lia.
          apply mapM_Some_1 in Hk.
          destruct (Forall2_lookup_l _ _ _ _ _ Hk Hs) as (i & Hi' & Hobj).
          rewrite list_lookup_fmap in Hi'.
          destruct (seq 0 n !! Z.to_nat (index p)) as [m|] eqn:Hm; [|done].
          apply lookup_seq in Hm as [-> _]. simpl in Hi'. injection Hi' as <-.
          destruct (objects w !! s) as [o|]; [|done]. exists o. split; [done|].
          simpl in Hobj. injection Hobj as ->. lia. }
        destruct (updateStep_own_index s p w o Ho Hidx) as [Hr|Hr];
          rewrite Hr in Hhere.
        -- by apply elem_of_nil in Hhere.
        -- apply list_elem_of_singleton in Hhere. discriminate Hhere.
    + (* the later calls *)
      revert Hlater. destruct (decide (index p = Z.of_nat n)) as [Hn|Hn].
      * rewrite bool_decide_eq_true_2 in Hgap by done.
        assert (array_get l (index p) = None) as Hget by (apply array_get_ge; lia).
        destruct (updateSteps_push_indices this p w l _ Hl Hget Hk) as (s & Hl' & Hk').
        apply (IH _ (l ++ [s]) (S n)); [done| |done].
        rewrite Hk', Hn, seq_S, fmap_app. done.
      * rewrite bool_decide_eq_false_2 in Hgap by done.
        destruct (array_get_lt l (index p)) as [s Hs]; [lia|].
        destruct (updateSteps_delegate_indices this p w l s Hl Hs) as [Hl' Hk'].
        apply (IH _ l n); [done|by rewrite Hk'|done].
Qed.

(** X7: when the updates delivered to a new plan skip no index, no call
    throws the index-mismatch error, whether the updates carry descriptions
    or not. *)
Theorem gap_free_delivery_never_mismatches this ps w :
  arrays w !! _steps this = Some [] →
  gap_free 0 (index <$> ps) →
  IndexMismatch ∉ deliver_errors this ps w.
Proof. intros Hl Hgap. by apply (deliver_gap_free_errors this ps w [] 0%nat). Qed.

Lemma gap_free_delivery_never_mismatches_witness :
  IndexMismatch ∉ deliver_errors sample_plan
                    [bare_update 0; update 1 "b"; bare_update 0; update 1 "c"]
                    sample_world.
Proof.
  refine (gap_free_delivery_never_mismatches sample_plan
            [bare_update 0; update 1 "b"; bare_update 0; update 1 "c"]
            sample_world _ _).
  - vm_compute. reflexivity.
  - simpl. lia.
Defined.

(** ** Sessions *)

Lemma updateStep_session this p w s :
  step_sessionId <$> objects (world_of (updateStep this p w)) !! s
  = step_sessionId <$> objects w !! s.
Proof.
  rewrite updateStep_unfold.
  destruct (objects w !! this) as [o|] eqn:Ho; [|done].
  repeat (case_match; simpl; try done).
  destruct (decide (this = s)) as [->|Hne].
  - by rewrite lookup_insert_eq, Ho.
  - by rewrite lookup_insert_ne.
Qed.

Lemma deliver_sessions this ps w l :
  arrays w !! _steps this = Some l →
  Forall (λ s, step_sessionId <$> objects w !! s = Some (sessionId this)) l →
  ∃ l', arrays (deliver this ps w) !! _steps this = Some l' ∧
    Forall (λ s, step_sessionId <$> objects (deliver this ps w) !! s
                 = Some (sessionId this)) l'.
Proof.
  revert w l. induction ps as [|p ps IH]; intros w l Hl Hall; simpl.
  - by exists l.
  - destruct (array_get l (index p)) as [s|] eqn:Hs.
    + apply (IH _ l).
      * rewrite (updateSteps_unfold _ _ _ _ Hl), Hs. by rewrite updateStep_arrays.
      * rewrite (updateSteps_unfold _ _ _ _ Hl), Hs.
        eapply Forall_impl; [exact Hall|]. intros s'. simpl.
        by rewrite updateStep_session.
    + apply (IH _ (l ++ [fresh (dom (objects w))])).
      * rewrite (updateSteps_unfold _ _ _ _ Hl), Hs. simpl.
        by rewrite lookup_insert_eq.
      * rewrite (updateSteps_unfold _ _ _ _ Hl), Hs. simpl.
        apply Forall_app. split.
        -- eapply Forall_impl; [exact Hall|]. intros s'. simpl. intros Hs'.
           rewrite lookup_insert_ne; [done|].
           intros <-. by rewrite fresh_step_unused in Hs'.
        -- constructor; [|constructor]. by rewrite lookup_insert_eq.
Qed.

(** X8: whatever updates are delivered to a new plan, every step in the
    plan's array carries the plan's session id. *)
Theorem steps_carry_plan_session this ps w :
  arrays w !! _steps this = Some [] →
  ∃ l, arrays (deliver this ps w) !! _steps this = Some l ∧
    Forall (λ s, step_sessionId <$> objects (deliver this ps w) !! s
                 = Some (sessionId this)) l.
Proof. intros Hl. by apply (deliver_sessions this ps w []). Qed.

Lemma steps_carry_plan_session_witness :
  ∃ l, arrays (deliver sample_plan sample_gapped_updates sample_world)
         !! _steps sample_plan = Some l ∧
    Forall (λ s, step_sessionId
                   <$> objects (deliver sample_plan sample_gapped_updates sample_world)
                         !! s = Some "s") l.
Proof.
  refine (steps_carry_plan_session sample_plan sample_gapped_updates sample_world _).
  vm_compute. reflexivity.
Defined.

End PlanMore.

(** * Further properties of the ordering of semantic search results *)

Module SideCarMore.
Import SideCar SideCarFacts.

Local Open Scope Q_scope.

(** X9: the comparator is consistent, as a sort requires: exchanging its
    arguments reverses the sign of its result, and the spans it does not put
    after one another form a chain. *)
Theorem compareFn_consistent a b c :
  (compareFn a b ?= 0) = CompOpp (compareFn b a ?= 0) ∧
  (compareFn a b <= 0 → compareFn b c <= 0 → compareFn a c <= 0).
Proof.
  unfold compareFn. split.
  - destruct (score a) as [sa|], (score b) as [sb|]; try reflexivity.
    destruct (Qcompare_spec (sb - sa) 0), (Qcompare_spec (sa - sb) 0);
      simpl; try reflexivity; lra.
  - destruct (score a) as [sa|], (score b) as [sb|], (score c) as [sc|];
      try done; lra.
Qed.

Lemma compareFn_consistent_witness :
  (compareFn (span "a" (Some (1#2))) (span "b" None) ?= 0) = Lt ∧
  (compareFn (span "b" None) (span "a" (Some (1#2))) ?= 0) = Gt ∧
  compareFn (span "c" (Some (3#4))) (span "b" None) <= 0.
Proof.
  split; [reflexivity|]. split; [reflexivity|].
  refine (proj2 (compareFn_consistent (span "c" (Some (3#4)))
                   (span "a" (Some (1#2))) (span "b" None)) _ _).
  - vm_compute. discriminate.
  - vm_compute. discriminate.
Defined.

(** X10: a response that is already ranked, scored spans first with scores
    that never increase, is returned in the order it came in. *)
Theorem ranked_response_keeps_order path_join repoPath code_spans :
  StronglySorted may_precede code_spans →
  getSemanticSearchResult path_join repoPath code_spans
  = map (toEmbeddings path_join repoPath) code_spans.
Proof.
  intros Hs. unfold getSemanticSearchResult.
  by rewrite <- (sort_determined code_spans code_spans).
Qed.

Lemma ranked_response_keeps_order_witness :
  getSemanticSearchResult String.append "/repo/"
    [span "c" (Some (3#4)); span "b" (Some (1#2)); span "a" None]
  = map (toEmbeddings String.append "/repo/")
      [span "c" (Some (3#4)); span "b" (Some (1#2)); span "a" None].
Proof.
  refine (ranked_response_keeps_order String.append "/repo/" _ _).
  repeat constructor; vm_compute; discriminate.
Defined.

(** X11: every span of the response gives exactly one entry of the result,
    which carries its lines, its text and its joined path: the result is a
    rearrangement of the entries made from the spans, so none is lost or
    doubled. *)
Theorem getSemanticSearchResult_entries path_join repoPath code_spans :
  getSemanticSearchResult path_join repoPath code_spans
    ≡ₚ map (toEmbeddings path_join repoPath) code_spans ∧
  length (getSemanticSearchResult path_join repoPath code_spans)
  = length code_spans.
Proof.
  unfold getSemanticSearchResult. split.
  - apply Permutation_map, sort_Permutation.
  - by rewrite length_map, (Permutation_length (sort_Permutation _ _)).
Qed.

End SideCarMore.

(** * Properties of the sidecar client *)

Module ClientFacts.
Import Client.

(** ** Repository references *)

(** X12: a repository reference can be read back from its representation: two
    references with the same representation have the same backend and the
    same path. *)
Theorem getRepresentation_inj r1 r2 :
  getRepresentation r1 = getRepresentation r2 → r1 = r2.
Proof.
  destruct r1 as [p1 [|]], r2 as [p2 [|]]; unfold getRepresentation; simpl;
    intros H; vm_compute in H; try discriminate H.
  - injection H as ->. done.
  - injection H as ->. done.
Qed.

Lemma getRepresentation_inj_witness : sample_repo = sample_repo.
Proof. refine (getRepresentation_inj sample_repo sample_repo _). reflexivity. Defined.

(** ** The health check *)

Section network_facts.

Variable url_valid : string → bool.
Variable respond : nat → URL → Exn + Response.

Ltac unfold_C :=
  unfold mbind, C_mbind, C_bind, mret, C_mret, C_ret, C_throw, try_catch,
    fetch, sleep; simpl.

Lemma loop_gives_up (err : nat → Exn) u k fuel i n :
  (k ≤ fuel)%nat →
  (0 < k)%nat →
  i + Z.of_nat k = totalAttempts →
  (∀ j, (j < k)%nat → respond (requests n + j) u = inl (err j)) →
  waitForGreenHC_loop respond fuel u i n
  = Failed (err (k - 1)%nat)
      {| requests := requests n + k; trace := trace n ++ failed_rounds u i k |}.
Proof.
  revert fuel i n err. induction k as [|k IH]; intros fuel i n err Hfuel Hk Hi Herr;
    [lia|].
  destruct fuel as [|fuel]; [lia|]. simpl. unfold_C.
  pose proof (Herr 0%nat ltac:(lia)) as H0. rewrite Nat.add_0_r in H0.
  rewrite H0. unfold totalAttempts in *.
  destruct k as [|k].
  - rewrite bool_decide_eq_false_2 by lia. simpl.
    replace (requests n + 1)%nat with (S (requests n)) by lia.
    by rewrite <- app_assoc.
  - rewrite bool_decide_eq_true_2 by lia.
    rewrite (IH fuel (i + 1) _ (λ j, err (S j))); [|lia|lia|lia|].
    + simpl. rewrite Nat.sub_0_r. f_equal. f_equal; [lia|].
      by rewrite <- !app_assoc.
    + intros j Hj. simpl. rewrite <- (Herr (S j)) by lia. f_equal. lia.
Qed.

Lemma loop_answers (err : nat → Exn) u k fuel i n r :
  (k < fuel)%nat →
  0 ≤ i →
  i + Z.of_nat k < totalAttempts →
  (∀ j, (j < k)%nat → respond (requests n + j) u = inl (err j)) →
  respond (requests n + k) u = inr r →
  waitForGreenHC_loop respond fuel u i n
  = Done (bool_decide (status r = 200))
      {| requests := S (requests n + k);
         trace := trace n ++ failed_rounds u i k ++ [Fetched u] |}.
Proof.
  revert fuel i n err. induction k as [|k IH]; intros fuel i n err Hfuel Hi Hlt Herr Hr.
  - destruct fuel as [|fuel]; [lia|]. simpl. unfold_C.
    rewrite Nat.add_0_r in Hr. rewrite Hr. by rewrite Nat.add_0_r.
  - destruct fuel as [|fuel]; [lia|]. simpl. unfold_C.
    pose proof (Herr 0%nat ltac:(lia)) as H0. rewrite Nat.add_0_r in H0.
    rewrite H0. unfold totalAttempts in *.
    rewrite bool_decide_eq_true_2 by lia.
    rewrite (IH fuel (i + 1) _ (λ j, err (S j))); [|lia|lia|lia| |].
    + simpl. f_equal. f_equal; [lia|]. by rewrite <- !app_assoc.
    + intros j Hj. simpl. rewrite <- (Herr (S j)) by lia. f_equal. lia.
    + simpl. rewrite <- Hr. f_equal. lia.
Qed.

Lemma waitForGreenHC_unfold fuel this n :
  url_valid (_url this) = true →
  waitForGreenHC url_valid respond fuel this n
  = waitForGreenHC_loop respond fuel (health_url this) 0 n.
Proof.
  intros Hv. unfold waitForGreenHC, new_URL. rewrite Hv. done.
Qed.

(** X13: when the server rejects ten health requests in a row,
    [waitForGreenHC] gives up: it has made exactly ten requests, has paused
    1, 2, ..., 10 seconds after them (also after the last one), and throws
    the error of the tenth request. *)
Theorem waitForGreenHC_gives_up (err : nat → Exn) fuel this n :
  url_valid (_url this) = true →
  (10 ≤ fuel)%nat →
  (∀ j, (j < 10)%nat →
     respond (requests n + j) (health_url this) = inl (err j)) →
  waitForGreenHC url_valid respond fuel this n
  = Failed (err 9%nat)
      {| requests := requests n + 10;
         trace := trace n ++ failed_rounds (health_url this) 0 10 |}.
Proof.
  intros Hv Hfuel Herr. rewrite waitForGreenHC_unfold by done.
  apply (loop_gives_up err _ 10); [lia|lia|done|done].
Qed.

(** X14: when the server rejects [k] health requests, [k] below ten, and
    answers the next one, [waitForGreenHC] returns whether the status of that
    answer is 200, after [k + 1] requests and a pause of [i] seconds after
    the [i]-th rejected one. *)
Theorem waitForGreenHC_answers (err : nat → Exn) fuel this n k r :
  url_valid (_url this) = true →
  (10 ≤ fuel)%nat →
  (k < 10)%nat →
  (∀ j, (j < k)%nat →
     respond (requests n + j) (health_url this) = inl (err j)) →
  respond (requests n + k) (health_url this) = inr r →
  waitForGreenHC url_valid respond fuel this n
  = Done (bool_decide (status r = 200))
      {| requests := S (requests n + k);
         trace := trace n ++ failed_rounds (health_url this) 0 k
                    ++ [Fetched (health_url this)] |}.
Proof.
  intros Hv Hfuel Hk Herr Hr. rewrite waitForGreenHC_unfold by done.
  apply (loop_answers err); try done; unfold totalAttempts; lia.
Qed.



(** ** Indexing a repository *)

Lemma waitForGreenHC_Done_valid fuel this n b n1 :
  waitForGreenHC url_valid respond fuel this n = Done b n1 →
  url_valid (_url this) = true.
Proof.
  unfold waitForGreenHC, new_URL. by destruct (url_valid (_url this)).
Qed.

(** X16: once the health check has returned, with whatever result, a
    repository that the server lists in [repo_map] is not indexed again:
    [indexRepositoryIfNotInvoked] asks for the repository list, makes no
    further request and returns [true]. *)
Theorem indexRepositoryIfNotInvoked_listed fuel this repoRef n b n1 r repoList m :
  waitForGreenHC url_valid respond fuel this n = Done b n1 →
  respond (requests n1) (repo_list_url this) = inr r →
  body r = Some repoList →
  get_property repoList "repo_map" = inr (Some (JObject m)) →
  getRepresentation repoRef ∈ m.*1 →
  indexRepositoryIfNotInvoked url_valid respond fuel this repoRef n
  = Done true
      {| requests := S (requests n1);
         trace := trace n1 ++ [Fetched (repo_list_url this)] |}.
Proof.
  intros Hhc Hr Hbody Hmap Hin.
  pose proof (waitForGreenHC_Done_valid _ _ _ _ _ Hhc) as Hv.
  unfold indexRepositoryIfNotInvoked.
  unfold mbind at 1, C_mbind, C_bind. rewrite Hhc.
  unfold getRepoListUrl, new_URL. rewrite Hv. unfold_C.
  change (set_pathname "/api/repo/repo_list" _) with (repo_list_url this).
  rewrite Hr. unfold json. rewrite Hbody. simpl.
  rewrite Hmap. simpl. by rewrite bool_decide_eq_true_2.
Qed.

(** X17: once the health check has returned, a repository that [repo_map]
    does not list is indexed with one request to [/api/repo/sync], which
    carries the representation as the parameter [repo]; the result is whether
    the [status] of the answer is the string ["ok"]. *)
Theorem indexRepositoryIfNotInvoked_unlisted fuel this repoRef n b n1 r repoList m
    r2 responseJson st :
  waitForGreenHC url_valid respond fuel this n = Done b n1 →
  respond (requests n1) (repo_list_url this) = inr r →
  body r = Some repoList →
  get_property repoList "repo_map" = inr (Some (JObject m)) →
  getRepresentation repoRef ∉ m.*1 →
  respond (S (requests n1)) (sync_url this repoRef) = inr r2 →
  body r2 = Some responseJson →
  get_property responseJson "status" = inr st →
  indexRepositoryIfNotInvoked url_valid respond fuel this repoRef n
  = Done (strict_eq_string st "ok")
      {| requests := S (S (requests n1));
         trace := trace n1 ++ [Fetched (repo_list_url this);
                               Fetched (sync_url this repoRef)] |}.
Proof.
  intros Hhc Hr Hbody Hmap Hin Hr2 Hbody2 Hst.
  pose proof (waitForGreenHC_Done_valid _ _ _ _ _ Hhc) as Hv.
  unfold indexRepositoryIfNotInvoked.
  unfold mbind at 1, C_mbind, C_bind. rewrite Hhc.
  unfold getRepoListUrl, new_URL. rewrite Hv. unfold_C.
  change (set_pathname "/api/repo/repo_list" _) with (repo_list_url this).
  rewrite Hr. unfold json. rewrite Hbody. simpl.
  rewrite Hmap. simpl. rewrite bool_decide_eq_false_2 by done. simpl.
  change (searchParams_set "repo" _ _) with (sync_url this repoRef).
  rewrite Hr2, Hbody2. simpl. rewrite Hst. simpl.
  by rewrite <- app_assoc.
Qed.

(** X18: when the health check gives up, [indexRepositoryIfNotInvoked] throws
    its error and asks the server nothing else. *)
Theorem indexRepositoryIfNotInvoked_server_down (err : nat → Exn) fuel this repoRef n :
  url_valid (_url this) = true →
  (10 ≤ fuel)%nat →
  (∀ j, (j < 10)%nat →
     respond (requests n + j) (health_url this) = inl (err j)) →
  indexRepositoryIfNotInvoked url_valid respond fuel this repoRef n
  = Failed (err 9%nat)
      {| requests := requests n + 10;
         trace := trace n ++ failed_rounds (health_url this) 0 10 |}.
Proof.
  intros Hv Hfuel Herr. unfold indexRepositoryIfNotInvoked.
  unfold mbind at 1, C_mbind, C_bind.
  by rewrite (waitForGreenHC_gives_up err).
Qed.

End network_facts.

Lemma waitForGreenHC_gives_up_witness :
  waitForGreenHC (λ _, true) sample_down 10 sample_client no_requests
  = Failed (NetworkError "connection refused")
      {| requests := 10;
         trace := failed_rounds (health_url sample_client) 0 10 |}.
Proof.
  refine (waitForGreenHC_gives_up (λ _, true) sample_down
            (λ _, NetworkError "connection refused") 10 sample_client
            no_requests _ _ _).
  - reflexivity.
  - lia.
  - intros j Hj. reflexivity.
Defined.

Lemma waitForGreenHC_answers_witness :
  waitForGreenHC (λ _, true) sample_listed 10 sample_client no_requests
  = Done false
      {| requests := 3;
         trace := failed_rounds (health_url sample_client) 0 2
                    ++ [Fetched (health_url sample_client)] |}.
Proof.
  refine (waitForGreenHC_answers (λ _, true) sample_listed
            (λ _, NetworkError "connection refused") 10 sample_client
            no_requests 2 {| status := 503; body := None |} _ _ _ _ _).
  - reflexivity.
  - lia.
  - lia.
  - intros [|[|j]] Hj; [reflexivity|reflexivity|lia].
  - reflexivity.
Defined.


Lemma indexRepositoryIfNotInvoked_listed_witness :
  indexRepositoryIfNotInvoked (λ _, true) sample_listed 10 sample_client
    sample_repo no_requests
  = Done true
      {| requests := 4;
         trace := failed_rounds (health_url sample_client) 0 2
                    ++ [Fetched (health_url sample_client);
                        Fetched (repo_list_url sample_client)] |}.
Proof.
  refine (indexRepositoryIfNotInvoked_listed (λ _, true) sample_listed 10
            sample_client sample_repo no_requests false
            {| requests := 3;
               trace := failed_rounds (health_url sample_client) 0 2
                          ++ [Fetched (health_url sample_client)] |}
            {| status := 200;
               body := Some (JObject [("repo_map",
                         JObject [("local//home/me/project", JObject [])])]) |}
            _ [("local//home/me/project", JObject [])] _ _ _ _ _).
  - vm_compute. reflexivity.
  - reflexivity.
  - reflexivity.
  - reflexivity.
  - vm_compute. apply list_elem_of_here.
Defined.

Lemma indexRepositoryIfNotInvoked_unlisted_witness :
  indexRepositoryIfNotInvoked (λ _, true) sample_unlisted 10 sample_client
    sample_repo no_requests
  = Done true
      {| requests := 3;
         trace := [Fetched (health_url sample_client);
                   Fetched (repo_list_url sample_client);
                   Fetched (sync_url sample_client sample_repo)] |}.
Proof.
  refine (indexRepositoryIfNotInvoked_unlisted (λ _, true) sample_unlisted 10
            sample_client sample_repo no_requests true
            {| requests := 1; trace := [Fetched (health_url sample_client)] |}
            {| status := 200; body := Some (JObject [("repo_map", JObject [])]) |}
            _ [] {| status := 200;
                    body := Some (JObject [("status", JString "ok")]) |}
            _ (Some (JString "ok")) _ _ _ _ _ _ _ _).
  - vm_compute. reflexivity.
  - reflexivity.
  - reflexivity.
  - reflexivity.
  - simpl. apply not_elem_of_nil.
  - reflexivity.
  - reflexivity.
  - reflexivity.
Defined.

Lemma indexRepositoryIfNotInvoked_server_down_witness :
  indexRepositoryIfNotInvoked (λ _, true) sample_down 10 sample_client
    sample_repo no_requests
  = Failed (NetworkError "connection refused")
      {| requests := 10;
         trace := failed_rounds (health_url sample_client) 0 10 |}.
Proof.
  refine (indexRepositoryIfNotInvoked_server_down (λ _, true) sample_down
            (λ _, NetworkError "connection refused") 10 sample_client sample_repo
            no_requests _ _ _).
  - reflexivity.
  - lia.
  - intros j Hj. reflexivity.
Defined.

End ClientFacts.
